(** * Tahta Connect, phone side: chunked transfer, negotiation timeout and
    candidate de-duplication

    A shallow embedding of [js/webrtc.js] (class [WebRTCClient]) and of the
    candidate subscription of [FirebaseSignaling], with the properties of the
    transfer protocol stated over it.

    Conventions of the embedding.
    - A JavaScript object with mutable fields is a record; a method is a
      function from the state before to the state after.
    - The browser (timers, the data channel, the DOM, the console) is not
      part of the repository.  Its visible reactions are recorded, in order,
      in the [effects] of a [World]; its own moves (a timer firing, the
      channel draining, a Blob read finishing) are inputs of the model.
    - A callback slot ([onProgress], [onError], ...) holds what the caller put
      there; the model keeps whether the slot is filled and records each
      invocation with its arguments.
    - Sizes and indices are integers of [Z]; all the ones that occur are
      below 2^53, where JavaScript's Number arithmetic on integers is exact. *)

From Stdlib Require Import ZArith QArith Qround Lia.
From stdpp Require Import base gmap sets list strings pretty.

Local Open Scope Z_scope.

(** ** JavaScript values that travel as JSON *)

Module Js.

#[local] Unset Elimination Schemes.
Inductive value :=
| undefined
| null
| boolean (b : bool)
| number (q : Q)
| str (s : string)
| object (fields : list (string * value))
| array (items : list value).
#[local] Set Elimination Schemes.

(** ToBoolean. *)
Definition truthy (v : value) : bool :=
  match v with
  | undefined | null => false
  | boolean b => b
  | number q => negb (Qnum q =? 0)
  | str s => negb (String.eqb s "")
  | object _ | array _ => true
  end.

Fixpoint assoc (name : string) (fields : list (string * value)) : value :=
  match fields with
  | [] => undefined
  | (k, v) :: rest => if String.eqb k name then v else assoc name rest
  end.

(** [v.name] for the property names the client reads ([header], [complete],
    [type], [filename], [totalSize], [totalChunks]): none of them is an
    index, [length], or a property of a built-in prototype, so only a plain
    object can have one.  [None] is the TypeError raised on [undefined] and
    [null]. *)
Definition get (v : value) (name : string) : option value :=
  match v with
  | undefined | null => None
  | object fields => Some (assoc name fields)
  | _ => Some undefined
  end.

(** [v === 'pdf'] and the like. *)
Definition is_str (v : value) (s : string) : bool :=
  match v with
  | str s' => String.eqb s' s
  | _ => false
  end.

End Js.

(** The Number that [n / d] evaluates to, kept as its two operands: the
    divisor of the receiver's progress comes from the remote header and may be
    any value. *)
Inductive Quotient := quot (n : Z) (d : Js.value).

(** The rational a quotient denotes when its divisor is a non-zero number. *)
Definition quotient_value (p : Quotient) : option Q :=
  match p with
  | quot n (Js.number d) =>
      if Qnum d =? 0 then None else Some (inject_Z n / d)%Q
  | _ => None
  end.

(** [Math.ceil]. *)
Definition Math_ceil (q : Q) : Z := Qceiling q.

(** ** Messages of the data channel *)

Definition bytes := list Byte.byte.

Definition byteLength (b : bytes) : Z := Z.of_nat (length b).

(** [ArrayBuffer.prototype.slice (start, end)]: negative indices count from
    the end, both are clamped to the buffer. *)
Definition slice (data : bytes) (start stop : Z) : bytes :=
  let len := byteLength data in
  let clamp k := if k <? 0 then Z.max (len + k) 0 else Z.min k len in
  let first := clamp start in
  let final := clamp stop in
  take (Z.to_nat (Z.max (final - first) 0)) (drop (Z.to_nat first) data).

Record Blob := { blob_parts : bytes; blob_type : string }.

(** A string on the channel is read only through [JSON.parse]; it is modelled
    by what [JSON.parse] does with it. *)
Inductive text :=
| json (v : Js.value)
| malformed.

(** [JSON.stringify] of the objects the client sends (plain objects of
    strings, integers and [true]): the text that [JSON.parse] reads back as
    the same object, which is what the language guarantees for them. *)
Definition JSON_stringify (v : Js.value) : text := json v.

(** [JSON.parse]; [None] is the SyntaxError. *)
Definition JSON_parse (t : text) : option Js.value :=
  match t with
  | json v => Some v
  | malformed => None
  end.

(** [event.data] of a data-channel message. *)
Inductive Message :=
| String_ (t : text)
| ArrayBuffer (b : bytes)
| Blob_ (b : Blob).

Inductive ReadyState := connecting | open | closing | closed.

#[global] Instance ReadyState_eq_dec : EqDecision ReadyState.
Proof. solve_decision. Defined.

Record RTCDataChannel := {
  readyState : ReadyState;
  bufferedAmount : Z   (* the gauge: bytes queued and not yet on the wire *)
}.

Inductive Exception :=
| Error (message : string)
| TypeError
| SyntaxError
| InvalidStateError.

(** [RTCDataChannel.send]: refused unless the channel is open; otherwise the
    message is queued and the gauge grows by its size.  [size] is the UTF-8
    length of a string message. *)
Definition send (size : text → Z) (m : Message) (dc : RTCDataChannel)
  : Exception + RTCDataChannel :=
  if decide (readyState dc = open) then
    inr {| readyState := readyState dc;
           bufferedAmount := bufferedAmount dc +
             match m with
             | String_ t => size t
             | ArrayBuffer b => byteLength b
             | Blob_ b => byteLength (blob_parts b)
             end |}
  else inl InvalidStateError.

(** ** The client object and the browser around it *)

(** [this.pendingFile]; the four header fields are whatever the remote
    header carried. *)
Record PendingFile := {
  type : Js.value;
  filename : Js.value;
  totalSize : Js.value;
  totalChunks : Js.value;
  chunks : list bytes;
  receivedSize : Z
}.

Inductive ConnectionState :=
| cs_new | cs_connecting | cs_connected | cs_disconnected | cs_failed | cs_closed.

Inductive IceConnectionState :=
| ice_new | ice_checking | ice_connected | ice_completed | ice_failed
| ice_disconnected | ice_closed.

Record RTCPeerConnection := {
  connectionState : ConnectionState;
  iceConnectionState : IceConnectionState
}.

(** The fields the constructor of [WebRTCClient] sets.  A callback slot is
    [true] when a function has been stored in it. *)
Record WebRTCClient := {
  pc : option RTCPeerConnection;
  dataChannel : option RTCDataChannel;
  onConnected : bool;
  onDisconnected : bool;
  onProgress : bool;
  onError : bool;
  onFileReceived : bool;
  isConnected : bool;
  connectionTimeout : option positive;
  pendingFile : option PendingFile
}.

(** What the client does to the outside, in order.  [dc_send g m] is
    the call [this.dataChannel.send(m)], made when the gauge read [g]. *)
Inductive Effect :=
| console_log (what : string)
| alert (what : string)
| call_onConnected
| call_onDisconnected
| call_onError (e : Exception)
| call_onProgress (p : Quotient)
| call_onFileReceived (type filename : Js.value) (blob : Blob)
| download (filename : Js.value) (blob : Blob)
| dc_send (buffered : Z) (m : Message)
| signaling_call (method : string)
| uncaught (e : Exception).

Record World := {
  this : WebRTCClient;
  isIOSSafari : bool;        (* the platform test made when the module loads *)
  timers : gset positive;    (* ids of the timeouts still pending *)
  next_timer : positive;     (* the id [setTimeout] returns next *)
  reads : list bytes;        (* Blob reads started and not yet finished *)
  waits : nat;               (* 10 ms waits taken so far *)
  effects : list Effect
}.

Definition with_this (f : WebRTCClient → WebRTCClient) (w : World) : World :=
  {| this := f (this w); isIOSSafari := isIOSSafari w; timers := timers w;
     next_timer := next_timer w; reads := reads w; waits := waits w;
     effects := effects w |}.

Definition emit (e : Effect) (w : World) : World :=
  {| this := this w; isIOSSafari := isIOSSafari w; timers := timers w;
     next_timer := next_timer w; reads := reads w; waits := waits w;
     effects := effects w ++ [e] |}.

Definition set_dataChannel (d : option RTCDataChannel) (c : WebRTCClient)
  : WebRTCClient :=
  {| pc := pc c; dataChannel := d; onConnected := onConnected c;
     onDisconnected := onDisconnected c; onProgress := onProgress c;
     onError := onError c; onFileReceived := onFileReceived c;
     isConnected := isConnected c; connectionTimeout := connectionTimeout c;
     pendingFile := pendingFile c |}.

Definition set_pc (p : option RTCPeerConnection) (c : WebRTCClient)
  : WebRTCClient :=
  {| pc := p; dataChannel := dataChannel c; onConnected := onConnected c;
     onDisconnected := onDisconnected c; onProgress := onProgress c;
     onError := onError c; onFileReceived := onFileReceived c;
     isConnected := isConnected c; connectionTimeout := connectionTimeout c;
     pendingFile := pendingFile c |}.

Definition set_isConnected (b : bool) (c : WebRTCClient) : WebRTCClient :=
  {| pc := pc c; dataChannel := dataChannel c; onConnected := onConnected c;
     onDisconnected := onDisconnected c; onProgress := onProgress c;
     onError := onError c; onFileReceived := onFileReceived c;
     isConnected := b; connectionTimeout := connectionTimeout c;
     pendingFile := pendingFile c |}.

Definition set_connectionTimeout (t : option positive) (c : WebRTCClient)
  : WebRTCClient :=
  {| pc := pc c; dataChannel := dataChannel c; onConnected := onConnected c;
     onDisconnected := onDisconnected c; onProgress := onProgress c;
     onError := onError c; onFileReceived := onFileReceived c;
     isConnected := isConnected c; connectionTimeout := t;
     pendingFile := pendingFile c |}.

Definition set_pendingFile (p : option PendingFile) (c : WebRTCClient)
  : WebRTCClient :=
  {| pc := pc c; dataChannel := dataChannel c; onConnected := onConnected c;
     onDisconnected := onDisconnected c; onProgress := onProgress c;
     onError := onError c; onFileReceived := onFileReceived c;
     isConnected := isConnected c; connectionTimeout := connectionTimeout c;
     pendingFile := p |}.

(** [if (this.onX) this.onX(...)]. *)
Definition call_if (slot : WebRTCClient → bool) (e : Effect) (w : World)
  : World :=
  if slot (this w) then emit e w else w.

(** ** Sending: [sendFile] *)

Definition CHUNK_SIZE : Z := 64 * 1024.

(** An [async] method: it ends by returning or by throwing, in a new world;
    [None] when the polling budget of the model ran out first. *)
Definition Async (A : Type) : Type :=
  World → option ((Exception + A) * World).

#[global] Instance Async_ret : MRet Async := λ A a w, Some (inr a, w).

#[global] Instance Async_bind : MBind Async :=
  λ A B k m w, match m w with
               | None => None
               | Some (inl e, w') => Some (inl e, w')
               | Some (inr a, w') => k a w'
               end.

Definition throw {A} (e : Exception) : Async A := λ w, Some (inl e, w).

Definition effect (f : World → World) : Async unit := λ w, Some (inr tt, f w).

Section Sender.

(** The UTF-8 length of a string message, as the gauge counts it. *)
Variable utf8_length : text → Z.

(** The transport between two polls: [drain k g] is the gauge after the
    [k]-th 10 ms wait when it was [g] before.  Within one task of the event
    loop the gauge moves only through [send].  During the waits of one call
    nothing else is taken to happen to the client: the channel stays as it
    is, no inbound message is handled and no second [sendFile] runs. *)
Variable drain : nat → Z → Z.

(** [this.dataChannel.send(m)]. *)
Definition channel_send (m : Message) : Async unit :=
  λ w, match dataChannel (this w) with
       | None => Some (inl TypeError, w)
       | Some dc =>
           match send utf8_length m dc with
           | inl e => Some (inl e, w)
           | inr dc' =>
               Some (inr tt,
                     emit (dc_send (bufferedAmount dc) m)
                       (with_this (set_dataChannel (Some dc')) w))
           end
       end.

(** [await new Promise(resolve => setTimeout(resolve, 10))]. *)
Definition sleep10 (w : World) : World :=
  {| this :=
       match dataChannel (this w) with
       | None => this w
       | Some dc =>
           set_dataChannel
             (Some {| readyState := readyState dc;
                      bufferedAmount := drain (waits w) (bufferedAmount dc) |})
             (this w)
       end;
     isIOSSafari := isIOSSafari w; timers := timers w;
     next_timer := next_timer w; reads := reads w; waits := S (waits w);
     effects := effects w |}.

(** [while (this.dataChannel.bufferedAmount > CHUNK_SIZE * 4) await ...];
    [polls] bounds the number of waits. *)
Fixpoint wait_for_drain (polls : nat) : Async unit :=
  λ w, match dataChannel (this w) with
       | None => Some (inl TypeError, w)
       | Some dc =>
           if bufferedAmount dc >? CHUNK_SIZE * 4 then
             match polls with
             | O => None
             | S polls' => wait_for_drain polls' (sleep10 w)
             end
           else Some (inr tt, w)
       end.

(** The body of the [for] loop, for [i], and the [n] iterations from [i]
    on; the loop runs from [i = 0] while [i < totalChunks]. *)
Fixpoint send_chunks (polls : nat) (data : bytes) (totalSize totalChunks : Z)
    (n : nat) (i : Z) : Async unit :=
  match n with
  | O => mret tt
  | S n' =>
      let start := i * CHUNK_SIZE in
      let stop := Z.min (start + CHUNK_SIZE) totalSize in
      let chunk := slice data start stop in
      wait_for_drain polls ;;
      channel_send (ArrayBuffer chunk) ;;
      let progress := quot (i + 1) (Js.number (inject_Z totalChunks)) in
      effect (call_if onProgress (call_onProgress progress)) ;;
      send_chunks polls data totalSize totalChunks n' (i + 1)
  end.

Definition header_message (type filename : string) (totalSize totalChunks : Z)
  : Js.value :=
  Js.object
    [("header",
      Js.object [("type", Js.str type);
                 ("filename", Js.str filename);
                 ("totalSize", Js.number (inject_Z totalSize));
                 ("totalChunks", Js.number (inject_Z totalChunks))])].

Definition complete_message : Js.value :=
  Js.object [("complete", Js.boolean true)].

Definition sendFile (polls : nat) (type filename : string) (data : bytes)
  : Async unit :=
  λ w,
    if match dataChannel (this w) with
       | None => true
       | Some dc => bool_decide (readyState dc ≠ open)
       end
    then throw (Error "DataChannel not open") w
    else
      let totalSize := byteLength data in
      let totalChunks :=
        Math_ceil (inject_Z totalSize / inject_Z CHUNK_SIZE) in
      (effect (emit (console_log "Sending")) ;;
       channel_send
         (String_ (JSON_stringify
                     (header_message type filename totalSize totalChunks))) ;;
       send_chunks polls data totalSize totalChunks (Z.to_nat totalChunks) 0 ;;
       channel_send (String_ (JSON_stringify complete_message)) ;;
       effect (emit (console_log "File sent successfully"))) w.

End Sender.

(** ** Receiving: [handleMessage] and [finalizeFile] *)

(** [new Blob(chunks, { type: ... })]: the chunks joined in order. *)
Definition assembled (p : PendingFile) : Blob :=
  {| blob_parts := concat (chunks p);
     blob_type := if Js.is_str (type p) "pdf" then "application/pdf"
                  else "application/octet-stream" |}.

Definition finalizeFile (w : World) : World :=
  match pendingFile (this w) with
  | None => w
  | Some p =>
      let blob := assembled p in
      let w := emit (console_log "File received") w in
      (* the object URL, the anchor element and the click on it *)
      let w := emit (download (filename p) blob) w in
      let w := emit (console_log "File downloaded:") w in
      let w := call_if onFileReceived
                 (call_onFileReceived (type p) (filename p) blob) w in
      with_this (set_pendingFile None) w
  end.

(** The two statements of the binary branch, shared by the [ArrayBuffer]
    case and by the continuation of [Blob.arrayBuffer()]. *)
Definition push_chunk (ab : bytes) (p : PendingFile) (w : World) : World :=
  let p' := {| type := type p; filename := filename p;
               totalSize := totalSize p; totalChunks := totalChunks p;
               chunks := chunks p ++ [ab];
               receivedSize := receivedSize p + byteLength ab |} in
  call_if onProgress
    (call_onProgress (quot (receivedSize p') (totalSize p')))
    (with_this (set_pendingFile (Some p')) w).

Definition start_read (b : bytes) (w : World) : World :=
  {| this := this w; isIOSSafari := isIOSSafari w; timers := timers w;
     next_timer := next_timer w; reads := reads w ++ [b]; waits := waits w;
     effects := effects w |}.

(** The [try] block of [handleMessage]: [inl] when a statement throws, with
    the world at that point. *)
Definition handleMessage_try (data : Message) (w : World)
  : Exception * World + World :=
  match data with
  | String_ t =>
      match JSON_parse t with
      | None => inl (SyntaxError, w)
      | Some msg =>
          match Js.get msg "header" with
          | None => inl (TypeError, w)
          | Some header =>
              if Js.truthy header then
                match Js.get header "filename" with
                | None => inl (TypeError, w)
                | Some _ =>
                    let w := emit (console_log "Receiving file:") w in
                    match Js.get header "type", Js.get header "filename",
                          Js.get header "totalSize",
                          Js.get header "totalChunks" with
                    | Some ty, Some fn, Some ts, Some tc =>
                        inr (with_this
                               (set_pendingFile
                                  (Some {| type := ty; filename := fn;
                                           totalSize := ts; totalChunks := tc;
                                           chunks := []; receivedSize := 0 |}))
                               w)
                    | _, _, _, _ => inl (TypeError, w)
                    end
                end
              else
                match Js.get msg "complete" with
                | None => inl (TypeError, w)
                | Some complete =>
                    if Js.truthy complete
                       && bool_decide (is_Some (pendingFile (this w)))
                    then inr (finalizeFile w)
                    else inr w
                end
          end
      end
  | ArrayBuffer ab =>
      match pendingFile (this w) with
      | Some p => inr (push_chunk ab p w)
      | None => inr w
      end
  | Blob_ b =>
      match pendingFile (this w) with
      | Some _ => inr (start_read (blob_parts b) w)
      | None => inr w
      end
  end.

Definition handleMessage (data : Message) (w : World) : World :=
  match handleMessage_try data w with
  | inr w' => w'
  | inl (_, w') => emit (console_log "Error handling message:") w'
  end.

(** The browser finishes the [k]-th pending Blob read and runs the
    continuation given to [then]; an exception in it is caught by nobody. *)
Definition blob_read_done (k : nat) (w : World) : World :=
  match reads w !! k with
  | None => w
  | Some ab =>
      let w := {| this := this w; isIOSSafari := isIOSSafari w;
                  timers := timers w; next_timer := next_timer w;
                  reads := delete k (reads w); waits := waits w;
                  effects := effects w |} in
      match pendingFile (this w) with
      | Some p => push_chunk ab p w
      | None => emit (uncaught TypeError) w
      end
  end.

(** The receiver after a run of messages, oldest first. *)
Definition receive (messages : list Message) (w : World) : World :=
  foldl (λ w m, handleMessage m w) w messages.

(** ** Negotiation: [connect], its handlers and the 30 second timeout *)

Definition set_timers (t : gset positive) (n : positive) (w : World) : World :=
  {| this := this w; isIOSSafari := isIOSSafari w; timers := t;
     next_timer := n; reads := reads w; waits := waits w;
     effects := effects w |}.

(** [setTimeout(handler, 30000)]: a fresh id, pending from now on. *)
Definition setTimeout (w : World) : positive * World :=
  (next_timer w,
   set_timers ({[next_timer w]} ∪ timers w) (Pos.succ (next_timer w)) w).

Definition clearTimeout (id : positive) (w : World) : World :=
  set_timers (timers w ∖ {[id]}) (next_timer w) w.

Definition clearConnectionTimeout (w : World) : World :=
  match connectionTimeout (this w) with
  | Some id => with_this (set_connectionTimeout None) (clearTimeout id w)
  | None => w
  end.

(** The function [connect] hands to [setTimeout]. *)
Definition connection_timeout_handler (w : World) : World :=
  if negb (isConnected (this w)) then
    let w := emit (console_log "CONNECTION TIMEOUT after 30 seconds") w in
    let w := emit (console_log "Final states - ICE:") w in
    if isIOSSafari w then emit (alert "Connection timeout. States:") w else w
  else w.

(** [this.dataChannel.onopen]. *)
Definition dataChannel_onopen (w : World) : World :=
  let w := emit (console_log "DataChannel OPEN") w in
  let w := clearConnectionTimeout w in
  let w := with_this (set_isConnected true) w in
  call_if onConnected call_onConnected w.

(** [this.dataChannel.onclose]. *)
Definition dataChannel_onclose (w : World) : World :=
  let w := emit (console_log "DataChannel CLOSED") w in
  let w := with_this (set_isConnected false) w in
  call_if onDisconnected call_onDisconnected w.

(** [this.dataChannel.onerror]. *)
Definition dataChannel_onerror (error : Exception) (w : World) : World :=
  let w := emit (console_log "DataChannel ERROR") w in
  call_if onError (call_onError error) w.

(** [this.pc.onconnectionstatechange], reading [this.pc.connectionState]. *)
Definition pc_onconnectionstatechange (w : World) : World :=
  match pc (this w) with
  | None => emit (uncaught TypeError) w
  | Some p =>
      let w := emit (console_log "Connection state:") w in
      match connectionState p with
      | cs_connected =>
          let w := clearConnectionTimeout w in
          emit (signaling_call "updateStatus") w
      | cs_failed =>
          let w := emit (console_log "CONNECTION FAILED") w in
          let w := clearConnectionTimeout w in
          let w := with_this (set_isConnected false) w in
          call_if onError (call_onError (Error "Connection failed")) w
      | cs_disconnected | cs_closed =>
          let w := with_this (set_isConnected false) w in
          call_if onDisconnected call_onDisconnected w
      | _ => w
      end
  end.

(** [this.pc.oniceconnectionstatechange]. *)
Definition pc_oniceconnectionstatechange (w : World) : World :=
  match pc (this w) with
  | None => emit (uncaught TypeError) w
  | Some p =>
      let w := emit (console_log "ICE connection state:") w in
      match iceConnectionState p with
      | ice_connected | ice_completed =>
          emit (console_log "ICE connected/completed") w
      | ice_failed =>
          let w := emit (console_log "ICE CONNECTION FAILED") w in
          if isIOSSafari w then emit (alert "ICE connection failed.") w else w
      | ice_disconnected => emit (console_log "ICE disconnected") w
      | _ => w
      end
  end.

(** What the browser answers to [createOffer] and [setLocalDescription]. *)
Inductive OfferOutcome :=
| offer_ok
| createOffer_rejects (e : Exception)
| setLocalDescription_rejects (e : Exception).

(** The [catch] clause of [connect]. *)
Definition connect_catch (error : Exception) (w : World)
  : (Exception + unit) * World :=
  let w := emit (console_log "WebRTC connect ERROR") w in
  (inl error, call_if onError (call_onError error) w).

Definition connect (browser : OfferOutcome) (w : World)
  : (Exception + unit) * World :=
  let w := with_this
             (set_pc (Some {| connectionState := cs_new;
                              iceConnectionState := ice_new |})) w in
  let w := emit (console_log "RTCPeerConnection created") w in
  let w := with_this
             (set_dataChannel
                (Some {| readyState := connecting; bufferedAmount := 0 |})) w in
  let w := emit (console_log "DataChannel created") w in
  let w := emit (signaling_call "onAnswer") w in
  let w := emit (signaling_call "onRemoteIceCandidate") w in
  let w := emit (console_log "Creating offer...") w in
  match browser with
  | createOffer_rejects e => connect_catch e w
  | _ =>
      let w := emit (console_log "Offer created, setting local description...")
                 w in
      match browser with
      | setLocalDescription_rejects e => connect_catch e w
      | _ =>
          let w := emit (console_log "Local description set") w in
          let w := emit (signaling_call "setOffer") w in
          let w := emit (console_log "Offer sent to Firebase") w in
          let (id, w) := setTimeout w in
          (inr tt, with_this (set_connectionTimeout (Some id)) w)
      end
  end.

(** The moves of the browser the client reacts to. *)
Inductive Move :=
| channel_opens
| channel_closes
| channel_error (e : Exception)
| channel_message (m : Message)
| connection_state (s : ConnectionState)
| ice_connection_state (s : IceConnectionState)
| timer_fires (id : positive)
| blob_read (k : nat).

Definition set_readyState (s : ReadyState) (c : WebRTCClient) : WebRTCClient :=
  match dataChannel c with
  | Some dc =>
      set_dataChannel
        (Some {| readyState := s; bufferedAmount := bufferedAmount dc |}) c
  | None => c
  end.

Definition set_pc_state (f : RTCPeerConnection → RTCPeerConnection)
    (c : WebRTCClient) : WebRTCClient :=
  set_pc (f <$> pc c) c.

(** One move: the browser updates its own object, then runs the handler
    [connect] registered for the event.  A timeout runs once, and only while
    it is pending. *)
Definition react (m : Move) (w : World) : World :=
  match m with
  | channel_opens => dataChannel_onopen (with_this (set_readyState open) w)
  | channel_closes => dataChannel_onclose (with_this (set_readyState closed) w)
  | channel_error e => dataChannel_onerror e w
  | channel_message d => handleMessage d w
  | connection_state s =>
      pc_onconnectionstatechange
        (with_this
           (set_pc_state
              (λ p, {| connectionState := s;
                       iceConnectionState := iceConnectionState p |})) w)
  | ice_connection_state s =>
      pc_oniceconnectionstatechange
        (with_this
           (set_pc_state
              (λ p, {| connectionState := connectionState p;
                       iceConnectionState := s |})) w)
  | timer_fires id =>
      if bool_decide (id ∈ timers w)
      then connection_timeout_handler (clearTimeout id w)
      else w
  | blob_read k => blob_read_done k w
  end.

Definition run (moves : list Move) (w : World) : World :=
  foldl (λ w m, react m w) w moves.

(** ** Signaling: the subscription to the remote candidates *)

Module FirebaseSignaling.

(** [Object.entries]: the own enumerable properties, in property order. *)
Definition Object_entries (data : Js.value) : list (string * Js.value) :=
  match data with
  | Js.object fields => fields
  | Js.array items => imap (λ i v, (pretty i, v)) items
  | Js.str s =>
      imap (λ i c, (pretty i, Js.str (String c EmptyString)))
        (String.list_ascii_of_string s)
  | _ => []
  end.

(** The closure [onRemoteIceCandidate] creates: its set of processed keys,
    and the calls of [callback] made so far, each written with the key of the
    entry whose candidate it was given. *)
Record Subscription := {
  processedKeys : gset string;
  applied : list (string * Js.value)
}.

Definition onRemoteIceCandidate : Subscription :=
  {| processedKeys := ∅; applied := [] |}.

(** The body of the [forEach].  The callback is taken to return normally,
    as the [async] function [connect] passes always does. *)
Definition visit (sub : Subscription) (entry : string * Js.value)
  : Subscription :=
  let (key, candidate) := entry in
  if bool_decide (key ∈ processedKeys sub) then sub
  else {| processedKeys := {[key]} ∪ processedKeys sub;
          applied := applied sub ++ [(key, candidate)] |}.

(** The listener given to [onValue], run on [snapshot.val()]. *)
Definition on_value (data : Js.value) (sub : Subscription) : Subscription :=
  if Js.truthy data then foldl visit sub (Object_entries data) else sub.

Definition deliver (snapshots : list Js.value) (sub : Subscription)
  : Subscription :=
  foldl (λ sub data, on_value data sub) sub snapshots.

(** The keys a delivery carries. *)
Definition keys_of (data : Js.value) : list string :=
  if Js.truthy data then (Object_entries data).*1 else [].

(** The set of processed keys is the set of keys the callback was called
    for, and no key was used twice. *)
Definition consistent (sub : Subscription) : Prop :=
  (∀ key, key ∈ processedKeys sub ↔ key ∈ (applied sub).*1) ∧
  NoDup (applied sub).*1.

End FirebaseSignaling.

(** ** Reading the record of effects *)

Definition sent_messages (es : list Effect) : list Message :=
  omap (λ e, match e with dc_send _ m => Some m | _ => None end) es.

Definition progress_calls (es : list Effect) : list Quotient :=
  omap (λ e, match e with call_onProgress p => Some p | _ => None end) es.

Definition received_files (es : list Effect)
  : list (Js.value * Js.value * Blob) :=
  omap (λ e, match e with
             | call_onFileReceived t f b => Some (t, f, b)
             | _ => None
             end) es.

(** An error reaching the caller or the page: [onError] called, or an
    exception nobody caught. *)
Definition is_failure_signal (e : Effect) : bool :=
  match e with
  | call_onError _ | uncaught _ => true
  | _ => false
  end.

Definition is_binary (m : Message) : bool :=
  match m with
  | String_ _ => false
  | ArrayBuffer _ | Blob_ _ => true
  end.

(** The [i]-th chunk [sendFile] cuts out of [data]. *)
Definition chunk (data : bytes) (i : Z) : bytes :=
  slice data (i * CHUNK_SIZE)
    (Z.min (i * CHUNK_SIZE + CHUNK_SIZE) (byteLength data)).

(** The effects of the iterations of the [for] loop from [i] on, one per
    gauge reading in [gauges]: the send of chunk [i], then the progress call
    when [onProgress] is set. *)
Fixpoint chunk_trace (callback : bool) (data : bytes) (totalChunks : Z)
    (gauges : list Z) (i : Z) : list Effect :=
  match gauges with
  | [] => []
  | g :: gauges' =>
      dc_send g (ArrayBuffer (chunk data i))
      :: (if callback
          then [call_onProgress
                  (quot (i + 1) (Js.number (inject_Z totalChunks)))]
          else [])
      ++ chunk_trace callback data totalChunks gauges' (i + 1)
  end.

(** The number of chunks of a payload of [n] bytes. *)
Definition chunk_count (n : Z) : Z :=
  Math_ceil (inject_Z n / inject_Z CHUNK_SIZE).

(** A world in which the data channel exists and is open. *)
Definition channel_open (w : World) : Prop :=
  ∃ dc, dataChannel (this w) = Some dc ∧ readyState dc = open.

Definition gauge (w : World) : Z :=
  match dataChannel (this w) with
  | Some dc => bufferedAmount dc
  | None => 0
  end.

(** A transport that keeps draining: a wait with the gauge above the
    threshold lowers it. *)
Definition drains (drain : nat → Z → Z) : Prop :=
  ∀ k g, CHUNK_SIZE * 4 < g → drain k g < g.

(** A send without the gauge reading it was made at. *)
Definition erase_gauge (e : Effect) : Effect :=
  match e with
  | dc_send _ m => dc_send 0 m
  | _ => e
  end.

(** The value the sender reports after chunk [i] of [n]. *)
Definition progress_after (n i : Z) : Quotient :=
  quot (i + 1) (Js.number (inject_Z n)).

(** ** The claims that fail, as stated *)

(** C4 as stated: handling a header while a transfer is pending adds a
    failure signal to the effects. *)
Definition header_conflict_signalled (header : Message) (w : World) : Prop :=
  ∃ rest, effects (handleMessage header w) = effects w ++ rest ∧
          Exists (λ e, is_failure_signal e = true) rest.


(** C9 as stated: when the timeout fires, a failure is signalled, once. *)
Definition timeout_reported (id : positive) (w : World) : Prop :=
  ∃ rest,
    effects (react (timer_fires id) w) = effects w ++ rest ∧
    length (filter (λ e, is_failure_signal e = true) rest) = 1%nat.

(** ** The undecided attempt *)

(** A move after which the timeout [id] of the attempt can still fire on a
    client that is not connected: not the channel opening, not the peer
    connection reaching [connected] or [failed], not that timeout itself. *)
Definition still_negotiating (id : positive) (m : Move) : bool :=
  match m with
  | channel_opens => false
  | connection_state cs_connected | connection_state cs_failed => false
  | timer_fires id' => negb (Pos.eqb id' id)
  | _ => true
  end.

(** While the attempt is undecided: the client holds the id of its timeout,
    the timeout is pending, and [isConnected] is false. *)
Definition awaiting (id : positive) (w : World) : Prop :=
  connectionTimeout (this w) = Some id ∧ id ∈ timers w ∧
  isConnected (this w) = false.

(** ** Worlds used as examples *)

(** Three bytes. *)
Definition abc : bytes := [Byte.x61; Byte.x62; Byte.x63].

(** A client whose channel is open, with every callback slot filled. *)
Definition connected_client : WebRTCClient :=
  {| pc := Some {| connectionState := cs_connected;
                   iceConnectionState := ice_connected |};
     dataChannel := Some {| readyState := open; bufferedAmount := 0 |};
     onConnected := true; onDisconnected := true; onProgress := true;
     onError := true; onFileReceived := true; isConnected := true;
     connectionTimeout := None; pendingFile := None |}.

Definition world_of (c : WebRTCClient) : World :=
  {| this := c; isIOSSafari := false; timers := ∅; next_timer := 1%positive;
     reads := []; waits := 0; effects := [] |}.

(** A freshly constructed client: nothing connected, only [onError] and
    [onFileReceived] set. *)
Definition fresh_client : WebRTCClient :=
  {| pc := None; dataChannel := None;
     onConnected := false; onDisconnected := false; onProgress := false;
     onError := true; onFileReceived := true; isConnected := false;
     connectionTimeout := None; pendingFile := None |}.

(** A receiver in the middle of a transfer: the header announced 10 bytes in
    1 chunk, 3 bytes have arrived. *)
Definition receiving_client : WebRTCClient :=
  set_pendingFile
    (Some {| type := Js.str "image"; filename := Js.str "photo.jpg";
             totalSize := Js.number 10; totalChunks := Js.number 1;
             chunks := [abc]; receivedSize := 3 |})
    fresh_client.

(** A client whose channel already holds 300000 queued bytes, and a
    transport that sends 100000 bytes during every wait. *)
Definition congested_client : WebRTCClient :=
  set_dataChannel (Some {| readyState := open; bufferedAmount := 300000 |})
    connected_client.

(** A transport that empties its queue during every wait, and a string
    size of 64 bytes for every text. *)
Definition drain_all : nat → Z → Z := λ _ _, 0.
Definition text_size : text → Z := λ _, 64.

Definition drain_100000 : nat → Z → Z := λ _ g, g - 100000.

(** ** The other methods of [WebRTCClient] *)

Section OtherSends.

Variable utf8_length : text → Z.
Variable drain : nat → Z → Z.



Definition pdf_request_message : Js.value :=
  Js.object [("type", Js.str "pdf_request")].

(** [requestPdf()]; it has no wait, so it never runs out of polls. *)
Definition requestPdf : Async unit :=
  λ w,
    if match dataChannel (this w) with
       | None => true
       | Some dc => bool_decide (readyState dc ≠ open)
       end
    then throw (Error "DataChannel not open") w
    else
      (effect (emit (console_log "Requesting PDF from Tahta...")) ;;
       channel_send utf8_length
         (String_ (JSON_stringify pdf_request_message))) w.

End OtherSends.

(** [disconnect()]. *)
Definition disconnect (w : World) : World :=
  let w := emit (console_log "Disconnecting...") w in
  let w := clearConnectionTimeout w in
  (* if (this.dataChannel) { close(); this.dataChannel = null } *)
  let w := with_this (set_dataChannel None) w in
  (* if (this.pc) { close(); this.pc = null } *)
  let w := with_this (set_pc None) w in
  let w := with_this (set_isConnected false) w in
  let w := emit (signaling_call "cleanup") w in
  emit (console_log "Disconnected") w.

(** The progress calls of the receiver for the chunks [cs], when [received]
    bytes have arrived before them. *)
Fixpoint receive_trace (callback : bool) (total : Js.value) (received : Z)
    (cs : list bytes) : list Effect :=
  match cs with
  | [] => []
  | c :: cs' =>
      (if callback
       then [call_onProgress (quot (received + byteLength c) total)]
       else [])
      ++ receive_trace callback total (received + byteLength c) cs'
  end.

(** The pending transfer counts what it holds. *)
Definition pending_consistent (w : World) : Prop :=
  ∀ p, pendingFile (this w) = Some p →
       receivedSize p = byteLength (concat (chunks p)).

(** The timeout [id] is either spent or the one the client remembers. *)
Definition cancellable (id : positive) (w : World) : Prop :=
  id ∈ timers w → connectionTimeout (this w) = Some id.

(** ** Reading what a run leaves alone *)

(** Everything but the gauge of the channel, the count of waits and the
    record of effects is the same in both worlds. *)
Definition same_but_gauge (w w' : World) : Prop :=
  set_dataChannel None (this w') = set_dataChannel None (this w) ∧
  readyState <$> dataChannel (this w') = readyState <$> dataChannel (this w) ∧
  isIOSSafari w' = isIOSSafari w ∧ timers w' = timers w ∧
  next_timer w' = next_timer w ∧ reads w' = reads w.

(** The three things [sendFile] does to the outside. *)
Definition sender_effect (e : Effect) : bool :=
  match e with
  | console_log _ | dc_send _ _ | call_onProgress _ => true
  | _ => false
  end.

(** The moves that bring data from the peer: a message, or the end of a
    Blob read a message started. *)
Definition carries_data (m : Move) : bool :=
  match m with
  | channel_message _ | blob_read _ => true
  | _ => false
  end.

(** ** Reading the deliveries of candidates *)

(** The entries the listener of [onRemoteIceCandidate] visits for one
    delivered value. *)
Definition entries_of (data : Js.value) : list (string * Js.value) :=
  if Js.truthy data then FirebaseSignaling.Object_entries data else [].

(** The entries whose key is not in [seen] and has not come before. *)
Fixpoint first_wins (seen : gset string) (entries : list (string * Js.value))
  : list (string * Js.value) :=
  match entries with
  | [] => []
  | (key, candidate) :: rest =>
      if bool_decide (key ∈ seen) then first_wins seen rest
      else (key, candidate) :: first_wins ({[key]} ∪ seen) rest
  end.

(** ** The recording timer of the page *)

(** [s.padStart(n, '0')]. *)
Fixpoint zeros (n : nat) : string :=
  match n with
  | O => ""
  | S n => "0" +:+ zeros n
  end.

Definition padStart (n : nat) (s : string) : string :=
  zeros (n - String.length s) +:+ s.

(** The text [updateTimer] (and [updateAudioTimer]) writes for
    [audioSeconds], a count of seconds. *)
Definition updateTimer (audioSeconds : N) : string :=
  let m := (audioSeconds / 60)%N in
  let s := (audioSeconds mod 60)%N in
  pretty m +:+ ":" +:+ padStart 2 (pretty s).

(** * Proofs *)

(** ** Arithmetic of chunking *)

Lemma chunk_count_div n : chunk_count n = (n + (CHUNK_SIZE - 1)) / CHUNK_SIZE.
Proof.
  unfold chunk_count, Math_ceil, Qceiling, CHUNK_SIZE.
  change (inject_Z n / inject_Z (64 * 1024))%Q
    with (inject_Z n * (1 # 65536))%Q.
  change (64 * 1024) with 65536.
  cbn [inject_Z Qmult Qopp Qfloor Qnum Qden].
  change (Z.pos (1 * 65536)) with 65536.
  assert (H := Z.div_mod (n + (65536 - 1)) 65536 ltac:(lia)).
  assert (H' := Z.mod_pos_bound (n + (65536 - 1)) 65536 ltac:(lia)).
  assert (G := Z.div_mod (- (n * 1)) 65536 ltac:(lia)).
  assert (G' := Z.mod_pos_bound (- (n * 1)) 65536 ltac:(lia)).
  lia.
Qed.

Lemma chunk_count_bounds n :
  0 ≤ n →
  0 ≤ chunk_count n ∧
  n ≤ chunk_count n * CHUNK_SIZE < n + CHUNK_SIZE.
Proof.
  intros Hn. rewrite chunk_count_div. unfold CHUNK_SIZE.
  change (64 * 1024) with 65536.
  assert (H := Z.div_mod (n + (65536 - 1)) 65536 ltac:(lia)).
  assert (H' := Z.mod_pos_bound (n + (65536 - 1)) 65536 ltac:(lia)).
  split; [apply Z.div_pos; lia | lia].
Qed.

Lemma chunk_take_drop data i :
  0 ≤ i →
  chunk data i =
  take (Z.to_nat CHUNK_SIZE) (drop (Z.to_nat (i * CHUNK_SIZE)) data).
Proof.
  intros Hi. unfold chunk, slice, byteLength.
  assert (HC : 0 < CHUNK_SIZE) by (unfold CHUNK_SIZE; lia).
  set (len := Z.of_nat (length data)).
  assert (Hlen : 0 ≤ len) by (subst len; lia).
  assert (Hs : 0 ≤ i * CHUNK_SIZE) by nia.
  destruct (Z.ltb_spec (i * CHUNK_SIZE) 0) as [?|_]; [lia|].
  destruct (Z.ltb_spec (Z.min (i * CHUNK_SIZE + CHUNK_SIZE) len) 0) as [?|_];
    [lia|].
  destruct (Z.le_gt_cases (i * CHUNK_SIZE) len) as [Hin|Hout].
  - rewrite (Z.min_l (i * CHUNK_SIZE) len) by lia.
    rewrite <- (take_idemp (drop _ data)), take_take.
    rewrite <- (take_ge (drop (Z.to_nat (i * CHUNK_SIZE)) data)
                  (Z.to_nat (len - i * CHUNK_SIZE))) at 2
      by (rewrite length_drop; subst len; lia).
    rewrite take_take. f_equal. lia.
  - rewrite !drop_ge by (subst len; lia). by rewrite !take_nil.
Qed.

Lemma chunk_length data i : 0 ≤ i → byteLength (chunk data i) ≤ CHUNK_SIZE.
Proof.
  intros Hi. rewrite chunk_take_drop by done. unfold byteLength.
  rewrite length_take. unfold CHUNK_SIZE. lia.
Qed.

Lemma chunks_concat data (n : nat) i :
  0 ≤ i →
  concat (chunk data <$> seqZ i (Z.of_nat n)) =
  take (n * Z.to_nat CHUNK_SIZE) (drop (Z.to_nat (i * CHUNK_SIZE)) data).
Proof.
  revert i. induction n as [|n IH]; intros i Hi.
  - by rewrite take_0.
  - rewrite seqZ_cons by lia. rewrite fmap_cons. simpl concat.
    replace (Z.pred (Z.of_nat (S n))) with (Z.of_nat n) by lia.
    rewrite IH by lia. rewrite chunk_take_drop by done.
    replace (Z.to_nat (Z.succ i * CHUNK_SIZE))
      with (Z.to_nat (i * CHUNK_SIZE) + Z.to_nat CHUNK_SIZE)%nat
      by (unfold CHUNK_SIZE; lia).
    generalize (Z.to_nat CHUNK_SIZE). intros c.
    rewrite <- drop_drop, take_take_drop.
    by replace (c + n * c)%nat with (S n * c)%nat by lia.
Qed.

Lemma chunk_byteLength data i :
  0 ≤ i →
  byteLength (chunk data i) =
  Z.max 0 (Z.min CHUNK_SIZE (byteLength data - i * CHUNK_SIZE)).
Proof.
  intros Hi. rewrite chunk_take_drop by done. unfold byteLength.
  rewrite length_take, length_drop.
  assert (0 < CHUNK_SIZE) by (unfold CHUNK_SIZE; lia).
  assert (0 ≤ i * CHUNK_SIZE) by nia.
  generalize dependent (i * CHUNK_SIZE). generalize dependent CHUNK_SIZE.
  intros c Hc s Hs. lia.
Qed.

(** The chunks of a payload, joined in order, are the payload. *)
Lemma chunks_reassemble data :
  concat (chunk data <$> seqZ 0 (chunk_count (byteLength data))) = data.
Proof.
  destruct (chunk_count_bounds (byteLength data)) as [Hn Hb];
    [unfold byteLength; lia|].
  rewrite <- (Z2Nat.id (chunk_count _)) by done.
  rewrite chunks_concat by done. simpl. rewrite drop_0.
  apply take_ge. unfold byteLength, CHUNK_SIZE in *. nia.
Qed.


(** The photo of 200000 bytes: four chunks of 65536, 65536, 65536 and 3392
    bytes, reported as 1/4, 2/4, 3/4 and 4/4. *)
Example photo_200000 data :
  byteLength data = 200000 →
  chunk_count (byteLength data) = 4 ∧
  byteLength <$> (chunk data <$> seqZ 0 4) = [65536; 65536; 65536; 3392] ∧
  progress_after 4 <$> seqZ 0 4 =
    [quot 1 (Js.number 4); quot 2 (Js.number 4);
     quot 3 (Js.number 4); quot 4 (Js.number 4)].
Proof.
  intros Hlen. rewrite Hlen. split; [by rewrite chunk_count_div|].
  split; [|reflexivity].
  change (seqZ 0 4) with [0; 1; 2; 3]. rewrite !fmap_cons.
  rewrite !chunk_byteLength, Hlen by lia. reflexivity.
Qed.

(** ** The run of [sendFile] *)

Lemma bind_Some {A B} (m : Async A) (k : A → Async B) w r w' :
  (m ≫= k) w = Some (r, w') →
  (∃ e, m w = Some (inl e, w') ∧ r = inl e) ∨
  (∃ a w1, m w = Some (inr a, w1) ∧ k a w1 = Some (r, w')).
Proof.
  unfold mbind, Async_bind. destruct (m w) as [[[e|a] w1]|]; intros H.
  - left. exists e. by inversion H.
  - right. by exists a, w1.
  - done.
Qed.

Lemma bind_inr {A B} (m : Async A) (k : A → Async B) w a w1 :
  m w = Some (inr a, w1) → (m ≫= k) w = k a w1.
Proof. unfold mbind, Async_bind. by intros ->. Qed.

Lemma bind_effect {B} (f : World → World) (k : unit → Async B) w :
  (effect f ≫= k) w = k tt (f w).
Proof. done. Qed.

Section SenderRun.

Variable utf8_length : text → Z.
Variable drain : nat → Z → Z.

Lemma sleep10_open w : channel_open w → channel_open (sleep10 drain w).
Proof.
  intros (dc & Hdc & Ho). unfold channel_open, sleep10. simpl. rewrite Hdc.
  simpl. eauto.
Qed.

Lemma wait_for_drain_spec polls w r w' :
  channel_open w →
  wait_for_drain drain polls w = Some (r, w') →
  r = inr tt ∧ channel_open w' ∧ gauge w' ≤ CHUNK_SIZE * 4 ∧
  effects w' = effects w ∧ onProgress (this w') = onProgress (this w).
Proof.
  revert w. induction polls as [|polls IH]; intros w Ho; simpl;
    destruct Ho as (dc & Hdc & Hopen); rewrite Hdc;
    destruct (Z.gtb_spec (bufferedAmount dc) (CHUNK_SIZE * 4)) as [Hg|Hg];
    intros H; try discriminate.
  - inversion H; subst. unfold gauge. rewrite Hdc.
    repeat split; eauto. exists dc; eauto.
  - apply IH in H; [|apply sleep10_open; by exists dc].
    destruct H as (-> & Ho' & Hg' & He & Hp). repeat split; try done.
    rewrite Hp. unfold sleep10. simpl. by rewrite Hdc.
  - inversion H; subst. unfold gauge. rewrite Hdc.
    repeat split; eauto. exists dc; eauto.
Qed.

Lemma channel_send_spec m w :
  channel_open w →
  ∃ w', channel_send utf8_length m w = Some (inr tt, w') ∧
        channel_open w' ∧
        effects w' = effects w ++ [dc_send (gauge w) m] ∧
        gauge w' = gauge w + match m with
                             | String_ t => utf8_length t
                             | ArrayBuffer b => byteLength b
                             | Blob_ b => byteLength (blob_parts b)
                             end ∧
        onProgress (this w') = onProgress (this w).
Proof.
  intros (dc & Hdc & Hopen). unfold channel_send, send, gauge.
  rewrite Hdc. destruct (decide (readyState dc = open)); [|done].
  eexists. split; [done|]. simpl. repeat split. eexists; split; done.
Qed.

Lemma call_if_onProgress_spec e w :
  effects (call_if onProgress e w) =
    effects w ++ (if onProgress (this w) then [e] else []) ∧
  this (call_if onProgress e w) = this w.
Proof.
  unfold call_if. destruct (onProgress (this w)); simpl; [done|].
  by rewrite app_nil_r.
Qed.

Lemma send_chunks_spec polls data tc n i w r w' :
  channel_open w →
  send_chunks utf8_length drain polls data (byteLength data) tc n i w
    = Some (r, w') →
  r = inr tt ∧ channel_open w' ∧
  onProgress (this w') = onProgress (this w) ∧
  ∃ gauges, length gauges = n ∧
            Forall (λ g, g ≤ CHUNK_SIZE * 4) gauges ∧
            effects w' = effects w ++
              chunk_trace (onProgress (this w)) data tc gauges i.
Proof.
  revert i w. induction n as [|n IH]; intros i w Ho; simpl.
  - intros H. inversion H; subst. repeat split; try done.
    exists []. simpl. by rewrite app_nil_r.
  - intros H. apply bind_Some in H as [(e & H & _)|([] & w1 & H1 & H)].
    { by apply wait_for_drain_spec in H as (? & _). }
    apply wait_for_drain_spec in H1 as (_ & Ho1 & Hg1 & He1 & Hp1); [|done].
    destruct (channel_send_spec
                (ArrayBuffer
                   (slice data (i * CHUNK_SIZE)
                      (Z.min (i * CHUNK_SIZE + CHUNK_SIZE) (byteLength data))))
                w1 Ho1) as (w2 & Hs & Ho2 & He2 & _ & Hp2).
    rewrite (bind_inr _ _ _ _ _ Hs) in H.
    rewrite bind_effect in H.
    destruct (call_if_onProgress_spec
                (call_onProgress
                   (quot (i + 1) (Js.number (inject_Z tc)))) w2)
      as [He3 Ht3].
    apply IH in H as (-> & Ho' & Hp' & gauges & Hlen & Hall & He').
    2:{ destruct Ho2 as (dc & ? & ?). exists dc. by rewrite Ht3. }
    rewrite Ht3 in Hp', He'. repeat split; try done; [congruence|].
    exists (gauge w1 :: gauges). simpl. split; [by rewrite Hlen|].
    split; [by constructor|].
    rewrite He', He3, He2, He1, Hp2, Hp1. by rewrite <- !app_assoc.
Qed.

Lemma sendFile_spec polls ty fn data w r w' :
  channel_open w →
  sendFile utf8_length drain polls ty fn data w = Some (r, w') →
  r = inr tt ∧
  ∃ g0 gauges g1,
    length gauges = Z.to_nat (chunk_count (byteLength data)) ∧
    Forall (λ g, g ≤ CHUNK_SIZE * 4) gauges ∧
    effects w' = effects w ++
      [console_log "Sending";
       dc_send g0
         (String_ (JSON_stringify
                     (header_message ty fn (byteLength data)
                        (chunk_count (byteLength data)))))] ++
      chunk_trace (onProgress (this w)) data
        (chunk_count (byteLength data)) gauges 0 ++
      [dc_send g1 (String_ (JSON_stringify complete_message));
       console_log "File sent successfully"].
Proof.
  intros Ho. unfold sendFile. pose proof Ho as (dc & Hdc & Hopen).
  rewrite Hdc. rewrite bool_decide_eq_false_2 by (intros ?; congruence).
  fold (chunk_count (byteLength data)).
  rewrite bind_effect.
  set (w0 := emit (console_log "Sending") w).
  assert (Ho0 : channel_open w0) by (by exists dc).
  destruct (channel_send_spec
              (String_ (JSON_stringify
                          (header_message ty fn (byteLength data)
                             (chunk_count (byteLength data))))) w0 Ho0)
    as (w1 & Hs1 & Ho1 & He1 & _ & Hp1).
  rewrite (bind_inr _ _ _ _ _ Hs1). intros H.
  apply bind_Some in H as [(e & H & _)|([] & w2 & H2 & H)].
  { by apply send_chunks_spec in H as (? & _). }
  apply send_chunks_spec in H2
    as (_ & Ho2 & Hp2 & gauges & Hlen & Hall & He2); [|done].
  destruct (channel_send_spec
              (String_ (JSON_stringify complete_message)) w2 Ho2)
    as (w3 & Hs3 & Ho3 & He3 & _ & Hp3).
  rewrite (bind_inr _ _ _ _ _ Hs3) in H. unfold effect in H.
  inversion H; subst. split; [done|].
  exists (gauge w0), gauges, (gauge w2). repeat split; try done.
  simpl. rewrite He3, He2, He1, Hp1. simpl. by rewrite <- !app_assoc.
Qed.

Lemma wait_for_drain_total polls w :
  drains drain → channel_open w →
  (Z.to_nat (gauge w - CHUNK_SIZE * 4) ≤ polls)%nat →
  ∃ w', wait_for_drain drain polls w = Some (inr tt, w').
Proof.
  intros Hd. revert w. induction polls as [|polls IH]; intros w Ho Hp;
    pose proof Ho as (dc & Hdc & Hopen); simpl; rewrite Hdc;
    unfold gauge in Hp; rewrite Hdc in Hp;
    destruct (Z.gtb_spec (bufferedAmount dc) (CHUNK_SIZE * 4)) as [Hg|Hg];
    eauto; [lia|].
  apply IH; [by apply sleep10_open|].
  unfold gauge, sleep10. simpl. rewrite Hdc. simpl.
  specialize (Hd (waits w) (bufferedAmount dc)). lia.
Qed.

Lemma send_chunks_total polls data tc n i w :
  drains drain → channel_open w → 0 ≤ i →
  (Z.to_nat (Z.max (gauge w) (CHUNK_SIZE * 5) - CHUNK_SIZE * 4) ≤ polls)%nat →
  ∃ w', send_chunks utf8_length drain polls data (byteLength data) tc n i w
        = Some (inr tt, w').
Proof.
  intros Hd. revert i w. induction n as [|n IH]; intros i w Ho Hi Hp; simpl.
  - by eexists.
  - destruct (wait_for_drain_total polls w Hd Ho) as (w1 & H1); [lia|].
    rewrite (bind_inr _ _ _ _ _ H1).
    apply wait_for_drain_spec in H1 as (_ & Ho1 & Hg1 & _); [|done].
    destruct (channel_send_spec
                (ArrayBuffer
                   (slice data (i * CHUNK_SIZE)
                      (Z.min (i * CHUNK_SIZE + CHUNK_SIZE) (byteLength data))))
                w1 Ho1) as (w2 & Hs & Ho2 & _ & Hg2 & _).
    rewrite (bind_inr _ _ _ _ _ Hs), bind_effect.
    destruct (call_if_onProgress_spec
                (call_onProgress
                   (quot (i + 1) (Js.number (inject_Z tc)))) w2)
      as [_ Ht3].
    apply IH; [|lia|].
    + destruct Ho2 as (dc & ? & ?). exists dc. by rewrite Ht3.
    + unfold gauge at 1. rewrite Ht3. fold (gauge w2). rewrite Hg2.
      pose proof (chunk_length data i Hi) as Hc. unfold chunk in Hc. lia.
Qed.

Lemma sendFile_total ty fn data w :
  drains drain → channel_open w →
  ∃ enough, ∀ polls, (enough ≤ polls)%nat →
    ∃ w', sendFile utf8_length drain polls ty fn data w = Some (inr tt, w').
Proof.
  intros Hd Ho.
  set (hdr := String_ (JSON_stringify
                         (header_message ty fn (byteLength data)
                            (chunk_count (byteLength data))))).
  exists (Z.to_nat (Z.max (gauge w + utf8_length
                                       (JSON_stringify
                                          (header_message ty fn
                                             (byteLength data)
                                             (chunk_count (byteLength data)))))
                      (CHUNK_SIZE * 5) - CHUNK_SIZE * 4)).
  intros polls Hp. unfold sendFile. pose proof Ho as (dc & Hdc & Hopen).
  rewrite Hdc. rewrite bool_decide_eq_false_2 by (intros ?; congruence).
  fold (chunk_count (byteLength data)). rewrite bind_effect.
  set (w0 := emit (console_log "Sending") w).
  assert (Ho0 : channel_open w0) by (by exists dc).
  destruct (channel_send_spec hdr w0 Ho0) as (w1 & Hs1 & Ho1 & _ & Hg1 & _).
  subst hdr. rewrite (bind_inr _ _ _ _ _ Hs1).
  destruct (send_chunks_total polls data (chunk_count (byteLength data))
              (Z.to_nat (chunk_count (byteLength data))) 0 w1 Hd Ho1)
    as (w2 & H2); [done| |].
  { rewrite Hg1. change (gauge w0) with (gauge w). lia. }
  rewrite (bind_inr _ _ _ _ _ H2).
  apply send_chunks_spec in H2 as (_ & Ho2 & _); [|done].
  destruct (channel_send_spec
              (String_ (JSON_stringify complete_message)) w2 Ho2)
    as (w3 & Hs3 & _).
  rewrite (bind_inr _ _ _ _ _ Hs3). by eexists.
Qed.

End SenderRun.

(** The two example transports keep draining. *)
Lemma drain_all_drains : drains drain_all.
Proof. intros k g Hg. unfold drain_all, CHUNK_SIZE in *. lia. Qed.

Lemma drain_100000_drains : drains drain_100000.
Proof. intros k g Hg. unfold drain_100000. lia. Qed.

(** ** What the chunk loop leaves in the record *)

Lemma chunk_trace_sent cb data tc gauges i :
  sent_messages (chunk_trace cb data tc gauges i) =
  (λ j, ArrayBuffer (chunk data j)) <$> seqZ i (Z.of_nat (length gauges)).
Proof.
  revert i. induction gauges as [|g gauges IH]; intros i; [done|].
  rewrite seqZ_cons by (simpl; lia).
  replace (Z.pred (Z.of_nat (length (g :: gauges))))
    with (Z.of_nat (length gauges)) by (simpl; lia).
  rewrite fmap_cons. simpl. unfold sent_messages in *.
  rewrite omap_app, IH. by destruct cb.
Qed.

Lemma chunk_trace_progress data tc gauges i :
  progress_calls (chunk_trace true data tc gauges i) =
  progress_after tc <$> seqZ i (Z.of_nat (length gauges)).
Proof.
  revert i. induction gauges as [|g gauges IH]; intros i; [done|].
  rewrite seqZ_cons by (simpl; lia).
  replace (Z.pred (Z.of_nat (length (g :: gauges))))
    with (Z.of_nat (length gauges)) by (simpl; lia).
  rewrite fmap_cons. simpl. unfold progress_calls in *.
  simpl. by rewrite IH.
Qed.

Lemma chunk_trace_interleaved data tc gauges i :
  erase_gauge <$> chunk_trace true data tc gauges i =
  concat ((λ j, [dc_send 0 (ArrayBuffer (chunk data j));
                 call_onProgress (progress_after tc j)])
            <$> seqZ i (Z.of_nat (length gauges))).
Proof.
  revert i. induction gauges as [|g gauges IH]; intros i; [done|].
  rewrite seqZ_cons by (simpl; lia).
  replace (Z.pred (Z.of_nat (length (g :: gauges))))
    with (Z.of_nat (length gauges)) by (simpl; lia).
  rewrite fmap_cons. simpl. by rewrite IH.
Qed.

Lemma chunk_trace_gauges cb data tc gauges i g b :
  0 ≤ i →
  Forall (λ g, g ≤ CHUNK_SIZE * 4) gauges →
  dc_send g (ArrayBuffer b) ∈ chunk_trace cb data tc gauges i →
  g ≤ CHUNK_SIZE * 4 ∧ g + byteLength b ≤ CHUNK_SIZE * 5.
Proof.
  intros Hi Hall. revert i Hi.
  induction Hall as [|g' gauges Hg' Hall IH]; intros i Hi; simpl.
  - by intros ?%elem_of_nil.
  - rewrite elem_of_cons, elem_of_app. intros [H|[H|H]].
    + inversion H; subst. pose proof (chunk_length data i Hi). lia.
    + destruct cb; [|by apply elem_of_nil in H].
      apply list_elem_of_singleton in H. discriminate.
    + apply (IH (i + 1)); [lia|done].
Qed.

(** ** Properties of [sendFile] *)

Lemma ratio_pos a n : 0 < a → 0 < n → (0 < inject_Z a / inject_Z n)%Q.
Proof.
  intros Ha Hn. destruct n as [|p|p]; try lia.
  unfold Qlt, Qdiv, Qmult, Qinv. simpl. lia.
Qed.

Lemma ratio_lt a b n :
  a < b → 0 < n → (inject_Z a / inject_Z n < inject_Z b / inject_Z n)%Q.
Proof.
  intros Hab Hn. destruct n as [|p|p]; try lia.
  unfold Qlt, Qdiv, Qmult, Qinv. simpl. nia.
Qed.

Lemma ratio_one n : 0 < n → (inject_Z n / inject_Z n == 1)%Q.
Proof.
  intros Hn. destruct n as [|p|p]; try lia.
  unfold Qeq, Qdiv, Qmult, Qinv. simpl. lia.
Qed.

Lemma progress_after_value n i :
  0 < n →
  quotient_value (progress_after n i) = Some (inject_Z (i + 1) / inject_Z n)%Q.
Proof.
  intros Hn. unfold quotient_value, progress_after. simpl.
  destruct (Z.eqb_spec n 0); [lia|done].
Qed.

Lemma last_progress_after n p :
  last (progress_after n <$> seqZ 0 n) = Some p →
  0 < n ∧ p = progress_after n (n - 1).
Proof.
  rewrite last_lookup, list_lookup_fmap, length_fmap, length_seqZ.
  destruct (seqZ 0 n !! pred (Z.to_nat n)) as [i|] eqn:Hi; [|done].
  apply lookup_seqZ in Hi as [-> Hlt]. simpl. intros [= <-].
  split; [lia|]. f_equal. lia.
Qed.



(** C5.  With [onProgress] set, the calls of the progress callback during
    [sendFile] are [(i + 1) / totalChunks] for [i = 0 .. totalChunks - 1],
    each right after the send of chunk [i]; the values are positive, strictly
    increasing and the last one is 1.  The quotients are taken as exact
    rationals. *)
Theorem sendFile_progress utf8_length drain ty fn data w :
  channel_open w →
  onProgress (this w) = true →
  let N := byteLength data in
  let n := chunk_count N in
  let value i := (inject_Z (i + 1) / inject_Z n)%Q in
  (∀ polls r w',
     sendFile utf8_length drain polls ty fn data w = Some (r, w') →
     progress_calls (effects w') =
       progress_calls (effects w) ++ (progress_after n <$> seqZ 0 n) ∧
     ∃ rest,
       effects w' = effects w ++ rest ∧
       erase_gauge <$> rest =
         [console_log "Sending";
          dc_send 0 (String_ (JSON_stringify (header_message ty fn N n)))] ++
         concat ((λ i, [dc_send 0 (ArrayBuffer (chunk data i));
                        call_onProgress (progress_after n i)])
                   <$> seqZ 0 n) ++
         [dc_send 0 (String_ (JSON_stringify complete_message));
          console_log "File sent successfully"]) ∧
  (∀ i, 0 ≤ i < n →
     quotient_value (progress_after n i) = Some (value i) ∧
     (0 < value i)%Q) ∧
  (∀ i j, 0 ≤ i < j → j < n → (value i < value j)%Q) ∧
  (∀ p, last (progress_after n <$> seqZ 0 n) = Some p →
     ∃ v, quotient_value p = Some v ∧ (v == 1)%Q) ∧
  (drains drain →
   ∃ enough, ∀ polls, (enough ≤ polls)%nat →
     ∃ w', sendFile utf8_length drain polls ty fn data w
           = Some (inr tt, w')).
Proof.
  intros Ho Hcb N n value. split; [|split; [|split; [|split]]].
  - intros polls r w' H.
    apply sendFile_spec in H
      as (-> & g0 & gauges & g1 & Hlen & _ & He); [|done].
    rewrite Hcb in He. fold N n in He, Hlen.
    assert (Hn : Z.of_nat (length gauges) = n).
    { rewrite Hlen, Z2Nat.id; [done|].
      apply chunk_count_bounds. unfold N, byteLength. lia. }
    split.
    + rewrite He. unfold progress_calls. rewrite !omap_app. simpl.
      fold (progress_calls (chunk_trace true data n gauges 0)).
      by rewrite chunk_trace_progress, Hn, app_nil_r.
    + eexists. split; [exact He|].
      rewrite !fmap_app, chunk_trace_interleaved, Hn. done.
  - intros i Hi. split; [apply progress_after_value; lia|].
    apply ratio_pos; lia.
  - intros i j Hij Hj. apply ratio_lt; lia.
  - intros p [Hn ->]%last_progress_after.
    eexists. split; [by apply progress_after_value|].
    replace (n - 1 + 1) with n by lia. by apply ratio_one.
  - intros Hd. by apply sendFile_total.
Qed.

(** An instance of C5: one chunk, one call with the value 1/1. *)
Lemma sendFile_progress_witness :
  progress_calls
    (effects
       (match sendFile text_size drain_all 0 "image" "photo.jpg" abc
                (world_of connected_client) with
        | Some (_, w') => w'
        | None => world_of connected_client
        end)) =
  [quot 1 (Js.number 1)].
Proof.
  assert (Ho : channel_open (world_of connected_client)).
  { eexists. split; reflexivity. }
  destruct (sendFile_progress text_size drain_all "image" "photo.jpg" abc
              (world_of connected_client) Ho eq_refl) as (H & _).
  destruct (sendFile text_size drain_all 0 "image" "photo.jpg" abc
              (world_of connected_client)) as [[r w']|] eqn:E.
  - destruct (H _ _ _ E) as [-> _]. vm_compute. reflexivity.
  - vm_compute in E. discriminate.
Defined.

(** C7.  The polling loop returns at once when the gauge is at most
    [4 * 65536] and otherwise waits and looks again; every binary send of
    [sendFile] is made with the gauge at most [4 * 65536], so right after
    it the gauge is at most [5 * 65536], whatever the size of the payload. *)
Theorem sendFile_backpressure utf8_length drain ty fn data w :
  channel_open w →
  (∀ polls v,
     channel_open v →
     (gauge v ≤ 4 * 65536 →
      wait_for_drain drain polls v = Some (inr tt, v)) ∧
     (4 * 65536 < gauge v →
      wait_for_drain drain (S polls) v =
        wait_for_drain drain polls (sleep10 drain v) ∧
      gauge (sleep10 drain v) = drain (waits v) (gauge v) ∧
      waits (sleep10 drain v) = S (waits v) ∧
      effects (sleep10 drain v) = effects v)) ∧
  (∀ polls r w',
     sendFile utf8_length drain polls ty fn data w = Some (r, w') →
     ∃ rest,
       effects w' = effects w ++ rest ∧
       ∀ g b, dc_send g (ArrayBuffer b) ∈ rest →
              g ≤ 4 * 65536 ∧ g + byteLength b ≤ 5 * 65536) ∧
  (drains drain →
   ∃ enough, ∀ polls, (enough ≤ polls)%nat →
     ∃ w', sendFile utf8_length drain polls ty fn data w
           = Some (inr tt, w')).
Proof.
  intros Ho. split; [|split].
  - intros polls v (dc & Hdc & Hopen). unfold gauge. rewrite Hdc.
    change (4 * 65536) with (CHUNK_SIZE * 4). split.
    + intros Hg. destruct polls; simpl; rewrite Hdc;
        destruct (Z.gtb_spec (bufferedAmount dc) (CHUNK_SIZE * 4)); (done || lia).
    + intros Hg. split; [|split; [|split]]; try done.
      * simpl. rewrite Hdc.
        by destruct (Z.gtb_spec (bufferedAmount dc) (CHUNK_SIZE * 4)); [|lia].
      * unfold sleep10. simpl. by rewrite Hdc.
  - intros polls r w' H.
    apply sendFile_spec in H
      as (-> & g0 & gauges & g1 & Hlen & Hall & He); [|done].
    eexists. split; [exact He|].
    intros g b. rewrite !elem_of_app, !elem_of_cons.
    intros [[H|[H|H]]|[H|[H|[H|H]]]]; try discriminate;
      try by apply elem_of_nil in H.
    change (4 * 65536) with (CHUNK_SIZE * 4).
    change (5 * 65536) with (CHUNK_SIZE * 5).
    by eapply chunk_trace_gauges.
  - intros Hd. by apply sendFile_total.
Qed.


(** An instance of C7: the header brings the gauge to 300064, one wait
    lowers it to 200064, and the chunk is sent then. *)
Lemma sendFile_backpressure_witness :
  ∃ w', sendFile text_size drain_100000 1 "image" "photo.jpg" abc
          (world_of congested_client) = Some (inr tt, w') ∧
        waits w' = 1%nat ∧
        dc_send 200064 (ArrayBuffer abc) ∈ effects w' ∧
        200064 ≤ 4 * 65536 ∧ 200064 + byteLength abc ≤ 5 * 65536.
Proof.
  assert (Ho : channel_open (world_of congested_client)).
  { eexists. split; reflexivity. }
  destruct (sendFile_backpressure text_size drain_100000 "image" "photo.jpg"
              abc (world_of congested_client) Ho) as (_ & H & _).
  destruct (sendFile text_size drain_100000 1 "image" "photo.jpg" abc
              (world_of congested_client)) as [[r w']|] eqn:E;
    [|vm_compute in E; discriminate].
  destruct (H _ _ _ E) as (rest & He & Hb).
  pose proof E as E'. vm_compute in E'. injection E' as Hr Hw'.
  exists w'. split; [by rewrite <- Hr|].
  split; [by rewrite <- Hw'|].
  assert (Hin : dc_send 200064 (ArrayBuffer abc) ∈ effects w').
  { rewrite <- Hw'. apply list_elem_of_In. simpl. tauto. }
  split; [done|]. apply Hb. rewrite He in Hin. exact Hin.
Defined.

(** C6.  Called without a data channel, or with one that is not open,
    [sendFile] throws [Error('DataChannel not open')] at once: nothing is
    sent or queued and the world is as before. *)
Theorem sendFile_not_open utf8_length drain polls ty fn data w :
  (dataChannel (this w) = None ∨
   ∃ dc, dataChannel (this w) = Some dc ∧ readyState dc ≠ open) →
  sendFile utf8_length drain polls ty fn data w
  = Some (inl (Error "DataChannel not open"), w).
Proof.
  intros [H|(dc & H & Hn)]; unfold sendFile; rewrite H; [done|].
  by rewrite bool_decide_eq_true_2.
Qed.

(** An instance of C6: a client that never connected. *)
Lemma sendFile_not_open_witness :
  sendFile text_size drain_all 0 "image" "photo.jpg" abc (world_of fresh_client)
  = Some (inl (Error "DataChannel not open"), world_of fresh_client).
Proof. apply sendFile_not_open. left. reflexivity. Defined.

(** ** Properties of the receiver *)

(** C10.  A binary message, [ArrayBuffer] or [Blob], that arrives while
    [pendingFile] is null is dropped: nothing throws, no effect is added and
    the world is as before. *)
Theorem binary_without_pending_ignored data w :
  is_binary data = true →
  pendingFile (this w) = None →
  handleMessage_try data w = inr w ∧ handleMessage data w = w.
Proof.
  intros Hb Hp. unfold handleMessage.
  destruct data; try discriminate; simpl; by rewrite Hp.
Qed.

(** An instance of C10: three bytes arriving at a fresh client. *)
Lemma binary_without_pending_ignored_witness :
  handleMessage (ArrayBuffer abc) (world_of fresh_client)
  = world_of fresh_client.
Proof.
  apply (binary_without_pending_ignored (ArrayBuffer abc)
           (world_of fresh_client)); reflexivity.
Defined.

Lemma truthy_get header name :
  Js.truthy header = true → ∃ v, Js.get header name = Some v.
Proof. destruct header; simpl; try discriminate; eauto. Qed.

(** C4 fails: a second header during a transfer is met with one console
    line; the three bytes received so far are dropped and nothing is
    signalled. *)
Lemma header_conflict_unsignalled :
  is_Some (pendingFile (this (world_of receiving_client))) ∧
  ¬ header_conflict_signalled
      (String_ (JSON_stringify (header_message "audio" "memo.webm" 5 1)))
      (world_of receiving_client).
Proof.
  split; [by eexists|]. intros (rest & He & Hex).
  vm_compute in He. subst rest.
  apply Exists_cons in Hex as [H|H]; [discriminate|].
  by apply Exists_nil in H.
Qed.

(** C4, amended.  A header that arrives while a transfer is pending replaces
    the pending transfer by a fresh one made from the new header, with no
    chunks and [receivedSize] 0; the only effect is the console line. *)
Theorem header_replaces_pending msg header p w :
  pendingFile (this w) = Some p →
  Js.get msg "header" = Some header →
  Js.truthy header = true →
  ∃ ty fn ts tc,
    Js.get header "type" = Some ty ∧
    Js.get header "filename" = Some fn ∧
    Js.get header "totalSize" = Some ts ∧
    Js.get header "totalChunks" = Some tc ∧
    let w' := handleMessage (String_ (json msg)) w in
    pendingFile (this w') =
      Some {| type := ty; filename := fn; totalSize := ts; totalChunks := tc;
              chunks := []; receivedSize := 0 |} ∧
    effects w' = effects w ++ [console_log "Receiving file:"] ∧
    w' = emit (console_log "Receiving file:")
           (with_this (set_pendingFile (pendingFile (this w'))) w).
Proof.
  intros Hp Hh Ht.
  destruct (truthy_get header "type" Ht) as [ty Hty].
  destruct (truthy_get header "filename" Ht) as [fn Hfn].
  destruct (truthy_get header "totalSize" Ht) as [ts Hts].
  destruct (truthy_get header "totalChunks" Ht) as [tc Htc].
  exists ty, fn, ts, tc. repeat (split; [done|]).
  unfold handleMessage, handleMessage_try. simpl JSON_parse. cbv iota.
  rewrite Hh, Ht, Hfn, Hty, Hts, Htc. done.
Qed.

(** An instance of C4 amended: the second header at [receiving_client]. *)
Lemma header_replaces_pending_witness :
  effects
    (handleMessage
       (String_ (json (header_message "audio" "memo.webm" 5 1)))
       (world_of receiving_client))
  = [console_log "Receiving file:"].
Proof.
  destruct (header_replaces_pending
              (header_message "audio" "memo.webm" 5 1)
              (Js.object [("type", Js.str "audio");
                          ("filename", Js.str "memo.webm");
                          ("totalSize", Js.number (inject_Z 5));
                          ("totalChunks", Js.number (inject_Z 1))])
              _ (world_of receiving_client) eq_refl eq_refl eq_refl)
    as (ty & fn & ts & tc & _ & _ & _ & _ & _ & He & _).
  exact He.
Defined.




(** ** Round trip *)

Lemma receive_app l1 l2 w : receive (l1 ++ l2) w = receive l2 (receive l1 w).
Proof. apply foldl_app. Qed.

Lemma handleMessage_sent_header ty fn N n w :
  handleMessage (String_ (JSON_stringify (header_message ty fn N n))) w =
  with_this
    (set_pendingFile
       (Some {| type := Js.str ty; filename := Js.str fn;
                totalSize := Js.number (inject_Z N);
                totalChunks := Js.number (inject_Z n);
                chunks := []; receivedSize := 0 |}))
    (emit (console_log "Receiving file:") w).
Proof. reflexivity. Qed.

Lemma received_files_call_if_onProgress e w :
  (∀ t f b, e ≠ call_onFileReceived t f b) →
  received_files (effects (call_if onProgress e w)) =
  received_files (effects w).
Proof.
  intros He. unfold call_if. destruct (onProgress (this w)); [|done].
  simpl. unfold received_files. rewrite omap_app. simpl.
  destruct e; try by rewrite app_nil_r. by destruct (He type0 filename0 blob).
Qed.

(** Binary messages during a transfer pile up in [chunks], in order. *)
Lemma receive_chunks cs p w :
  pendingFile (this w) = Some p →
  ∃ p',
    pendingFile (this (receive (ArrayBuffer <$> cs) w)) = Some p' ∧
    type p' = type p ∧ filename p' = filename p ∧
    chunks p' = chunks p ++ cs ∧
    received_files (effects (receive (ArrayBuffer <$> cs) w)) =
      received_files (effects w) ∧
    onFileReceived (this (receive (ArrayBuffer <$> cs) w)) =
      onFileReceived (this w).
Proof.
  revert p w. induction cs as [|c cs IH]; intros p w Hp.
  - exists p. by rewrite app_nil_r.
  - rewrite fmap_cons. unfold receive. simpl foldl.
    fold (receive (ArrayBuffer <$> cs) (handleMessage (ArrayBuffer c) w)).
    set (w1 := handleMessage (ArrayBuffer c) w).
    assert (H1 : w1 = push_chunk c p w).
    { unfold w1, handleMessage. simpl. by rewrite Hp. }
    destruct (call_if_onProgress_spec
                (call_onProgress
                   (quot (receivedSize p + byteLength c) (totalSize p)))
                (with_this
                   (set_pendingFile
                      (Some {| type := type p; filename := filename p;
                               totalSize := totalSize p;
                               totalChunks := totalChunks p;
                               chunks := chunks p ++ [c];
                               receivedSize := receivedSize p + byteLength c |}))
                   w))
      as [He Ht].
    destruct (IH {| type := type p; filename := filename p;
                    totalSize := totalSize p; totalChunks := totalChunks p;
                    chunks := chunks p ++ [c];
                    receivedSize := receivedSize p + byteLength c |} w1)
      as (p' & Hp' & Hty & Hfn & Hch & Hrf & Hcb).
    { rewrite H1. unfold push_chunk. simpl. by rewrite Ht. }
    exists p'. simpl in *. rewrite Hp', Hty, Hfn, Hch, Hrf, Hcb.
    rewrite <- app_assoc. repeat split; try done.
    + rewrite H1. unfold push_chunk. simpl.
      by rewrite received_files_call_if_onProgress.
    + rewrite H1. unfold push_chunk. simpl. by rewrite Ht.
Qed.

Lemma handleMessage_sent_complete p w :
  pendingFile (this w) = Some p →
  handleMessage (String_ (JSON_stringify complete_message)) w =
  finalizeFile w.
Proof.
  intros Hp. unfold handleMessage, handleMessage_try. simpl.
  rewrite Hp. by rewrite bool_decide_eq_true_2 by (by eexists).
Qed.

(** C1.  The messages [sendFile] puts on an open channel, handled in order
    by a receiver whose [onFileReceived] is set, end in one call of that
    callback with the type and the filename the sender was given and a Blob
    of exactly the payload's bytes; and on a transport that keeps draining
    [sendFile] does return. *)
Theorem transfer_round_trip utf8_length drain ty fn data sender receiver :
  channel_open sender →
  onFileReceived (this receiver) = true →
  (∀ polls r sender',
     sendFile utf8_length drain polls ty fn data sender = Some (r, sender') →
     ∃ messages,
       sent_messages (effects sender') =
         sent_messages (effects sender) ++ messages ∧
       let receiver' := receive messages receiver in
       received_files (effects receiver') =
         received_files (effects receiver) ++
         [(Js.str ty, Js.str fn,
           {| blob_parts := data;
              blob_type := if String.eqb ty "pdf" then "application/pdf"
                           else "application/octet-stream" |})] ∧
       pendingFile (this receiver') = None) ∧
  (drains drain →
   ∃ enough, ∀ polls, (enough ≤ polls)%nat →
     ∃ sender', sendFile utf8_length drain polls ty fn data sender
                = Some (inr tt, sender')).
Proof.
  intros Ho Hcb. split; [|intros Hd; by apply sendFile_total].
  intros polls r sender' H.
  apply sendFile_spec in H
    as (-> & g0 & gauges & g1 & Hlen & _ & He); [|done].
  set (N := byteLength data) in *. set (n := chunk_count N) in *.
  assert (Hn : Z.of_nat (length gauges) = n).
  { rewrite Hlen, Z2Nat.id; [done|].
    apply chunk_count_bounds. unfold N, byteLength. lia. }
  eexists. split.
  { rewrite He. unfold sent_messages. rewrite !omap_app. simpl.
    fold (sent_messages (chunk_trace (onProgress (this sender)) data n
                           gauges 0)).
    rewrite chunk_trace_sent, Hn. reflexivity. }
  intros receiver'. subst receiver'.
  change ((λ j, ArrayBuffer (chunk data j)) <$> seqZ 0 n)
    with ((ArrayBuffer ∘ chunk data) <$> seqZ 0 n).
  rewrite (list_fmap_compose (chunk data) ArrayBuffer).
  unfold receive at 1 2. simpl foldl.
  fold (receive ((ArrayBuffer <$> (chunk data <$> seqZ 0 n)) ++
                   [String_ (JSON_stringify complete_message)])
          (handleMessage
             (String_ (JSON_stringify (header_message ty fn N n)))
             receiver)).
  rewrite !receive_app.
  rewrite handleMessage_sent_header.
  set (w1 := with_this _ _).
  destruct (receive_chunks (chunk data <$> seqZ 0 n)
              {| type := Js.str ty; filename := Js.str fn;
                 totalSize := Js.number (inject_Z N);
                 totalChunks := Js.number (inject_Z n);
                 chunks := []; receivedSize := 0 |} w1 eq_refl)
    as (p' & Hp' & Hty & Hfn & Hch & Hrf & Hcb').
  set (w2 := receive _ w1) in *.
  unfold receive. simpl foldl.
  rewrite (handleMessage_sent_complete p' w2 Hp').
  unfold finalizeFile, assembled. rewrite Hp'. unfold call_if. simpl.
  rewrite Hcb'. simpl. rewrite Hcb. simpl. split; [|done].
  unfold received_files in *. rewrite !omap_app. simpl.
  rewrite !app_nil_r, Hrf. unfold w1. simpl.
  rewrite omap_app. simpl. rewrite app_nil_r.
  rewrite Hty, Hfn, Hch. simpl.
  unfold n, N. by rewrite chunks_reassemble.
Qed.

(** An instance of C1: three bytes from a connected client to a fresh one. *)
Lemma transfer_round_trip_witness :
  ∃ sender' messages,
    sendFile text_size drain_all 0 "image" "photo.jpg" abc
      (world_of connected_client) = Some (inr tt, sender') ∧
    sent_messages (effects sender') = messages ∧
    received_files (effects (receive messages (world_of fresh_client))) =
      [(Js.str "image", Js.str "photo.jpg",
        {| blob_parts := abc; blob_type := "application/octet-stream" |})].
Proof.
  assert (Ho : channel_open (world_of connected_client)).
  { eexists. split; reflexivity. }
  destruct (transfer_round_trip text_size drain_all "image" "photo.jpg" abc
              (world_of connected_client) (world_of fresh_client) Ho eq_refl)
    as (H & _).
  destruct (sendFile text_size drain_all 0 "image" "photo.jpg" abc
              (world_of connected_client)) as [[r sender']|] eqn:E;
    [|vm_compute in E; discriminate].
  destruct (H _ _ _ E) as (messages & Hm & Hr & _).
  pose proof E as E'. vm_compute in E'. injection E' as Hr' _.
  exists sender', messages. split; [by rewrite <- Hr'|].
  split; [exact Hm|exact Hr].
Defined.

(** ** The candidate subscription *)

Module Candidates.
Import FirebaseSignaling.

Lemma visit_spec sub entry :
  consistent sub →
  consistent (visit sub entry) ∧
  (∀ key, key ∈ (applied (visit sub entry)).*1 ↔
          key ∈ (applied sub).*1 ∨ key = entry.1) ∧
  (∀ x, x ∈ applied (visit sub entry) → x ∈ applied sub ∨ x = entry).
Proof.
  intros [Hk Hnd]. destruct entry as [key c]. unfold visit.
  case_bool_decide as Hin.
  - split; [done|]. split; [|by left].
    intros k. split; [by left|]. intros [?| ->]; [done|]. by apply Hk.
  - unfold consistent. simpl. rewrite fmap_app. simpl. split; [split|split].
    + intros k. rewrite elem_of_union, elem_of_singleton, elem_of_app,
        list_elem_of_singleton, Hk. tauto.
    + apply NoDup_app. split; [done|]. split; [|apply NoDup_singleton].
      intros k Hk1 Heq%list_elem_of_singleton. subst k. by apply Hin, Hk.
    + intros k. by rewrite elem_of_app, list_elem_of_singleton.
    + intros x. by rewrite elem_of_app, list_elem_of_singleton.
Qed.

Lemma foldl_visit_spec entries sub :
  consistent sub →
  consistent (foldl visit sub entries) ∧
  (∀ key, key ∈ (applied (foldl visit sub entries)).*1 ↔
          key ∈ (applied sub).*1 ∨ key ∈ entries.*1) ∧
  (∀ x, x ∈ applied (foldl visit sub entries) →
        x ∈ applied sub ∨ x ∈ entries).
Proof.
  revert sub. induction entries as [|e entries IH]; intros sub Hc; simpl.
  - split; [done|]. split; [|by left].
    intros k. rewrite elem_of_nil. tauto.
  - destruct (visit_spec sub e Hc) as (Hc1 & Hk1 & Hx1).
    destruct (IH _ Hc1) as (Hc2 & Hk2 & Hx2). split; [done|]. split.
    + intros k. rewrite Hk2, Hk1, elem_of_cons. tauto.
    + intros x Hx. rewrite elem_of_cons.
      destruct (Hx2 x Hx) as [H|H]; [|tauto].
      destruct (Hx1 x H); tauto.
Qed.

Lemma deliver_spec snapshots sub :
  consistent sub →
  consistent (deliver snapshots sub) ∧
  (∀ key, key ∈ (applied (deliver snapshots sub)).*1 ↔
          key ∈ (applied sub).*1 ∨
          ∃ data, data ∈ snapshots ∧ key ∈ keys_of data) ∧
  (∀ x, x ∈ applied (deliver snapshots sub) →
        x ∈ applied sub ∨
        ∃ data, data ∈ snapshots ∧ Js.truthy data = true ∧
                x ∈ Object_entries data).
Proof.
  revert sub. induction snapshots as [|data snapshots IH]; intros sub Hc.
  - simpl. split; [done|]. split; [|by left].
    intros k. split; [by left|]. intros [?|(d & []%elem_of_nil & _)]. done.
  - unfold deliver. simpl foldl. fold (deliver snapshots (on_value data sub)).
    assert (H1 : consistent (on_value data sub) ∧
                 (∀ key, key ∈ (applied (on_value data sub)).*1 ↔
                         key ∈ (applied sub).*1 ∨ key ∈ keys_of data) ∧
                 (∀ x, x ∈ applied (on_value data sub) →
                       x ∈ applied sub ∨
                       Js.truthy data = true ∧ x ∈ Object_entries data)).
    { unfold on_value, keys_of. destruct (Js.truthy data).
      - destruct (foldl_visit_spec (Object_entries data) sub Hc)
          as (Hc' & Hk' & Hx). split; [done|]. split; [done|].
        intros x Hin. destruct (Hx x Hin); tauto.
      - split; [done|]. split; [|by left].
        intros k. rewrite elem_of_nil. tauto. }
    destruct H1 as (Hc1 & Hk1 & Hx1).
    destruct (IH _ Hc1) as (Hc2 & Hk2 & Hx2). split; [done|]. split.
    + intros k. rewrite Hk2, Hk1. split.
      * intros [[?|?]|(d & ? & ?)]; [by left| |].
        -- right. exists data. split; [by left|done].
        -- right. exists d. split; [by right|done].
      * intros [?|(d & [-> |?]%elem_of_cons & ?)]; [tauto|tauto|].
        right. by exists d.
    + intros x Hx. destruct (Hx2 x Hx) as [H|(d & ? & ? & ?)].
      * destruct (Hx1 x H) as [?|[? ?]]; [by left|].
        right. exists data. split; [by left|done].
      * right. exists d. split; [by right|done].
Qed.



End Candidates.

(** ** The negotiation timeout *)

Lemma handleMessage_frame data w :
  connectionTimeout (this (handleMessage data w)) = connectionTimeout (this w) ∧
  timers (handleMessage data w) = timers w ∧
  isConnected (this (handleMessage data w)) = isConnected (this w).
Proof.
  unfold handleMessage, handleMessage_try.
  destruct data as [t|ab|b].
  - destruct (JSON_parse t) as [msg|]; [|done].
    destruct (Js.get msg "header") as [header|]; [|done].
    destruct (Js.truthy header).
    + destruct (Js.get header "filename"); [|done].
      by destruct (Js.get header "type"), (Js.get header "totalSize"),
           (Js.get header "totalChunks").
    + destruct (Js.get msg "complete") as [c|]; [|done].
      destruct (Js.truthy c && bool_decide (is_Some (pendingFile (this w))));
        [|done].
      unfold finalizeFile. destruct (pendingFile (this w)); [|done].
      simpl. unfold call_if. simpl. by destruct (onFileReceived (this w)).
  - destruct (pendingFile (this w)); [|done].
    unfold push_chunk, call_if. simpl. by destruct (onProgress (this w)).
  - by destruct (pendingFile (this w)).
Qed.

Lemma react_awaiting id m w :
  still_negotiating id m = true → awaiting id w → awaiting id (react m w).
Proof.
  unfold awaiting. intros Hm (Ht & Hin & Hc).
  destruct m as [| |e|d|s|s|id'|k]; simpl in Hm; try discriminate; simpl.
  - unfold dataChannel_onclose, call_if, set_readyState. simpl.
    destruct (dataChannel (this w)) eqn:E; simpl;
      destruct (onDisconnected (this w)); simpl; by rewrite ?E.
  - unfold dataChannel_onerror, call_if. simpl.
    by destruct (onError (this w)).
  - by destruct (handleMessage_frame d w) as (-> & -> & ->).
  - unfold pc_onconnectionstatechange, set_pc_state. simpl.
    destruct (pc (this w)); simpl; [|done].
    destruct s; try discriminate; simpl; try done; unfold call_if; simpl;
      by destruct (onDisconnected (this w)).
  - unfold pc_oniceconnectionstatechange, set_pc_state. simpl.
    destruct (pc (this w)); simpl; [|done].
    destruct s; simpl; try done. by destruct (isIOSSafari w).
  - case_bool_decide as Hid; [|done].
    unfold connection_timeout_handler. simpl. rewrite Hc. simpl.
    assert (id' ≠ id) by (by intros ->; rewrite Pos.eqb_refl in Hm).
    destruct (isIOSSafari w); simpl; repeat split; try done; set_solver.
  - unfold blob_read_done. destruct (reads w !! k); [|done]. simpl.
    destruct (pendingFile (this w)); [|done].
    unfold push_chunk, call_if. simpl. by destruct (onProgress (this w)).
Qed.

Lemma run_awaiting id moves w :
  Forall (λ m, still_negotiating id m = true) moves →
  awaiting id w → awaiting id (run moves w).
Proof.
  intros Hall. revert w. induction Hall as [|m moves Hm _ IH]; intros w Hw.
  - done.
  - unfold run. simpl. apply IH. by apply react_awaiting.
Qed.

Lemma connect_awaiting w :
  isConnected (this w) = false →
  (connect offer_ok w).1 = inr tt ∧
  awaiting (next_timer w) (connect offer_ok w).2.
Proof.
  intros Hc. unfold connect, awaiting. simpl. repeat split; [|done].
  set_solver.
Qed.

(** C9 fails: on a client with [onError] set, the timeout of an attempt
    that never connected adds two console lines and signals nothing. *)
Lemma timeout_unreported :
  onError (this (world_of fresh_client)) = true ∧
  ¬ timeout_reported 1 (connect offer_ok (world_of fresh_client)).2.
Proof.
  split; [reflexivity|]. intros (rest & He & Hn).
  change (effects (react (timer_fires 1)
                     (connect offer_ok (world_of fresh_client)).2))
    with (effects (connect offer_ok (world_of fresh_client)).2 ++
          [console_log "CONNECTION TIMEOUT after 30 seconds";
           console_log "Final states - ICE:"]) in He.
  apply app_inv_head in He. subst rest. discriminate.
Qed.

(** C9, amended.  After [connect] has published the offer, as long as the
    channel has not opened and the peer connection has reached neither
    [connected] nor [failed], the timeout stays pending and [isConnected]
    stays false; when it fires, the handler writes two console lines, plus
    an alert on iOS Safari, and does nothing else: no field of the client
    changes, [onError] is not called, nothing is retried or closed.  The
    timeout is then spent: it cannot run a second time. *)
Theorem timeout_only_logs (moves : list Move) (w : World) :
  isConnected (this w) = false →
  let id := next_timer w in
  Forall (λ m, still_negotiating id m = true) moves →
  let attempt := connect offer_ok w in
  let before := run moves attempt.2 in
  let after := react (timer_fires id) before in
  fst attempt = inr tt ∧
  awaiting id before ∧
  this after = this before ∧
  effects after =
    effects before ++
    [console_log "CONNECTION TIMEOUT after 30 seconds";
     console_log "Final states - ICE:"] ++
    (if isIOSSafari before
     then [alert "Connection timeout. States:"] else []) ∧
  (id ∉ timers after) ∧
  react (timer_fires id) after = after.
Proof.
  intros Hc id0 Hall attempt before after.
  destruct (connect_awaiting w Hc) as [Hr Ha]. split; [done|].
  assert (Hb : awaiting id0 before) by (by apply run_awaiting).
  split; [done|]. destruct Hb as (Ht & Hin & Hcb).
  assert (Hafter : after =
            connection_timeout_handler (clearTimeout id0 before)).
  { unfold after. simpl. by rewrite bool_decide_eq_true_2. }
  assert (Htimers : id0 ∉ timers after).
  { rewrite Hafter. unfold connection_timeout_handler. simpl. rewrite Hcb.
    simpl. destruct (isIOSSafari before); simpl;
      rewrite elem_of_difference, elem_of_singleton; tauto. }
  assert (Hshape :
            after = (if isIOSSafari before
                     then emit (alert "Connection timeout. States:")
                     else id)
                      (emit (console_log "Final states - ICE:")
                         (emit (console_log
                                  "CONNECTION TIMEOUT after 30 seconds")
                            (clearTimeout id0 before)))).
  { rewrite Hafter. unfold connection_timeout_handler. simpl. rewrite Hcb.
    simpl. by destruct (isIOSSafari before). }
  split; [|split; [|split; [done|]]].
  - rewrite Hshape. by destruct (isIOSSafari before).
  - rewrite Hshape. destruct (isIOSSafari before); simpl;
      by rewrite <- !app_assoc.
  - simpl. by rewrite bool_decide_eq_false_2.
Qed.

(** An instance of C9 amended: a fresh client connects, the channel
    closes, and the timeout fires. *)
Lemma timeout_only_logs_witness :
  let before :=
    run [channel_closes] (connect offer_ok (world_of fresh_client)).2 in
  this (react (timer_fires 1) before) = this before.
Proof.
  destruct (timeout_only_logs [channel_closes] (world_of fresh_client)
              eq_refl) as (_ & _ & H & _).
  - repeat constructor.
  - exact H.
Defined.

(** * Further properties of the client *)

(** ** What [sendFile] leaves alone *)

Lemma same_but_gauge_refl w : same_but_gauge w w.
Proof. by repeat split. Qed.

Lemma same_but_gauge_trans w1 w2 w3 :
  same_but_gauge w1 w2 → same_but_gauge w2 w3 → same_but_gauge w1 w3.
Proof.
  intros (?&?&?&?&?&?) (?&?&?&?&?&?). repeat split; congruence.
Qed.

Lemma same_but_gauge_emit e w : same_but_gauge w (emit e w).
Proof. by repeat split. Qed.

Lemma same_but_gauge_call_if slot e w : same_but_gauge w (call_if slot e w).
Proof.
  unfold call_if. destruct (slot (this w));
    [apply same_but_gauge_emit|apply same_but_gauge_refl].
Qed.

Section SenderFrame.

Variable utf8_length : text → Z.
Variable drain : nat → Z → Z.

Lemma sleep10_frame w : same_but_gauge w (sleep10 drain w).
Proof.
  unfold same_but_gauge, sleep10. simpl.
  destruct (dataChannel (this w)) eqn:E; simpl; rewrite ?E; by repeat split.
Qed.

Lemma wait_for_drain_frame polls w r w' :
  wait_for_drain drain polls w = Some (r, w') → same_but_gauge w w'.
Proof.
  revert w. induction polls as [|polls IH]; intros w; simpl;
    destruct (dataChannel (this w)) as [dc|] eqn:E;
    try (intros [= <- <-]; apply same_but_gauge_refl);
    destruct (bufferedAmount dc >? CHUNK_SIZE * 4);
    try (intros [= <- <-]; apply same_but_gauge_refl); try discriminate.
  intros H%IH. eapply same_but_gauge_trans; [apply sleep10_frame|done].
Qed.

Lemma channel_send_frame m w r w' :
  channel_send utf8_length m w = Some (r, w') → same_but_gauge w w'.
Proof.
  unfold channel_send, send.
  destruct (dataChannel (this w)) as [dc|] eqn:E;
    [|intros [= <- <-]; apply same_but_gauge_refl].
  destruct (decide (readyState dc = open));
    intros [= <- <-]; [|apply same_but_gauge_refl].
  unfold same_but_gauge. simpl. rewrite E. by repeat split.
Qed.

Lemma send_chunks_frame polls data ts tc n i w r w' :
  send_chunks utf8_length drain polls data ts tc n i w = Some (r, w') →
  same_but_gauge w w'.
Proof.
  revert i w. induction n as [|n IH]; intros i w; simpl.
  - intros [= <- <-]. apply same_but_gauge_refl.
  - intros H. apply bind_Some in H as [(e & H & _)|([] & w1 & H1 & H)];
      [by eapply wait_for_drain_frame|].
    apply wait_for_drain_frame in H1.
    apply bind_Some in H as [(e & H & _)|([] & w2 & H2 & H)];
      [eapply same_but_gauge_trans; [done|by eapply channel_send_frame]|].
    apply channel_send_frame in H2. rewrite bind_effect in H.
    apply IH in H.
    eapply same_but_gauge_trans; [done|].
    eapply same_but_gauge_trans; [done|].
    eapply same_but_gauge_trans; [apply same_but_gauge_call_if|done].
Qed.

Lemma sendFile_frame polls ty fn data w r w' :
  sendFile utf8_length drain polls ty fn data w = Some (r, w') →
  same_but_gauge w w'.
Proof.
  unfold sendFile.
  destruct (match dataChannel (this w) with
            | Some dc => bool_decide (readyState dc ≠ open)
            | None => true
            end).
  { intros [= <- <-]. apply same_but_gauge_refl. }
  rewrite bind_effect. intros H.
  eapply same_but_gauge_trans; [apply same_but_gauge_emit|].
  apply bind_Some in H as [(e & H & _)|([] & w1 & H1 & H)];
    [by eapply channel_send_frame|].
  apply channel_send_frame in H1.
  eapply same_but_gauge_trans; [done|].
  apply bind_Some in H as [(e & H & _)|([] & w2 & H2 & H)];
    [by eapply send_chunks_frame|].
  apply send_chunks_frame in H2.
  eapply same_but_gauge_trans; [done|].
  apply bind_Some in H as [(e & H & _)|([] & w3 & H3 & H)];
    [by eapply channel_send_frame|].
  apply channel_send_frame in H3. unfold effect in H.
  injection H as <- <-.
  eapply same_but_gauge_trans; [done|apply same_but_gauge_emit].
Qed.

End SenderFrame.

(** The guard of [sendFile], as a rewriting rule. *)
Lemma sendFile_not_open_any utf8_length drain polls ty fn data w :
  (dataChannel (this w) = None ∨
   ∃ dc, dataChannel (this w) = Some dc ∧ readyState dc ≠ open) →
  sendFile utf8_length drain polls ty fn data w
  = Some (inl (Error "DataChannel not open"), w).
Proof.
  intros [H|(dc & H & Hn)]; unfold sendFile; rewrite H; [done|].
  by rewrite bool_decide_eq_true_2.
Qed.

Lemma chunk_trace_sender_effects cb data tc gauges i :
  Forall (λ e, sender_effect e = true) (chunk_trace cb data tc gauges i).
Proof.
  revert i. induction gauges as [|g gauges IH]; intros i; simpl; [done|].
  constructor; [done|]. apply Forall_app. split; [|apply IH].
  destruct cb; by repeat constructor.
Qed.

(** X1.  Whatever its outcome, [sendFile] changes nothing of the client but
    the gauge of the data channel: the callbacks, [isConnected], the timeout
    and a transfer being received stay as they are, and the only things it
    does to the outside are console lines, sends and [onProgress] calls. *)
Theorem sendFile_touches_only_channel
    utf8_length drain polls ty fn data w r w' :
  sendFile utf8_length drain polls ty fn data w = Some (r, w') →
  same_but_gauge w w' ∧
  pendingFile (this w') = pendingFile (this w) ∧
  isConnected (this w') = isConnected (this w) ∧
  ∃ rest, effects w' = effects w ++ rest ∧
          Forall (λ e, sender_effect e = true) rest.
Proof.
  intros H. pose proof (sendFile_frame _ _ _ _ _ _ _ _ _ H) as Hf.
  split; [done|]. destruct Hf as (Hthis & _).
  split; [by apply (f_equal pendingFile) in Hthis|].
  split; [by apply (f_equal isConnected) in Hthis|].
  destruct (dataChannel (this w)) as [dc|] eqn:Hdc.
  - destruct (decide (readyState dc = open)) as [Ho|Hn].
    + apply sendFile_spec in H
        as (_ & g0 & gauges & g1 & _ & _ & He); [|by exists dc].
      eexists. split; [exact He|].
      repeat (apply Forall_app; split); try by repeat constructor.
      apply chunk_trace_sender_effects.
    + rewrite sendFile_not_open_any in H by (right; by exists dc).
      injection H as <- <-. exists []. by rewrite app_nil_r.
  - rewrite sendFile_not_open_any in H by by left.
    injection H as <- <-. exists []. by rewrite app_nil_r.
Qed.

(** An instance of X1: three bytes sent on an open channel. *)
Lemma sendFile_touches_only_channel_witness :
  ∃ r w',
    sendFile text_size drain_all 0 "image" "photo.jpg" abc
      (world_of connected_client) = Some (r, w') ∧
    pendingFile (this w') = None ∧ isConnected (this w') = true.
Proof.
  destruct (sendFile text_size drain_all 0 "image" "photo.jpg" abc
              (world_of connected_client)) as [[r w']|] eqn:E;
    [|vm_compute in E; discriminate].
  destruct (sendFile_touches_only_channel _ _ _ _ _ _ _ _ _ E)
    as (_ & Hp & Hc & _).
  exists r, w'. split; [done|]. split; [exact Hp|exact Hc].
Defined.

(** ** The shape of the chunks *)

(** X2.  Chunk [i] of a payload is its bytes from [i * 65536] on: no chunk
    that is sent is empty, every chunk but the last has exactly 65536 bytes,
    and the last one has what is left. *)
Theorem chunk_layout data i :
  let N := byteLength data in
  let n := chunk_count N in
  0 ≤ i < n →
  0 < byteLength (chunk data i) ∧
  (i < n - 1 → byteLength (chunk data i) = 65536) ∧
  (i = n - 1 → byteLength (chunk data i) = N - (n - 1) * 65536) ∧
  ∀ k : nat, Z.of_nat k < byteLength (chunk data i) →
             chunk data i !! k = data !! (Z.to_nat (i * 65536) + k)%nat.
Proof.
  intros N n Hi.
  destruct (chunk_count_bounds N) as [Hn Hb]; [unfold N, byteLength; lia|].
  fold n in Hn, Hb. change CHUNK_SIZE with 65536 in Hb.
  pose proof (chunk_byteLength data i ltac:(lia)) as Hlen.
  fold N in Hlen. change CHUNK_SIZE with 65536 in Hlen.
  split; [lia|]. split; [lia|]. split; [lia|].
  intros k Hk. rewrite chunk_take_drop by lia. unfold bytes.
  rewrite lookup_take_lt, lookup_drop; [done|].
  rewrite Hlen in Hk. change CHUNK_SIZE with 65536.
  generalize dependent 65536. intros c. lia.
Qed.

(** An instance of X2: the only chunk of three bytes is the three bytes. *)
Lemma chunk_layout_witness : byteLength (chunk abc 0) = 3 - (1 - 1) * 65536.
Proof.
  assert (H : 0 ≤ 0 < chunk_count (byteLength abc)) by (vm_compute; split; congruence).
  destruct (chunk_layout abc 0 H) as (_ & _ & Hlast & _).
  exact (Hlast eq_refl).
Defined.

(** ** The receiver on a whole transfer *)

Lemma receive_chunks_world cs p w :
  pendingFile (this w) = Some p →
  this (receive (ArrayBuffer <$> cs) w) =
    set_pendingFile
      (Some {| type := type p; filename := filename p;
               totalSize := totalSize p; totalChunks := totalChunks p;
               chunks := chunks p ++ cs;
               receivedSize := receivedSize p + byteLength (concat cs) |})
      (this w) ∧
  effects (receive (ArrayBuffer <$> cs) w) =
    effects w ++
    receive_trace (onProgress (this w)) (totalSize p) (receivedSize p) cs.
Proof.
  revert p w. induction cs as [|c cs IH]; intros p w Hp.
  - simpl. change (byteLength []) with 0. rewrite Z.add_0_r, !app_nil_r.
    split; [|done].
    destruct (this w) as [? ? ? ? ? ? ? ? ? pf]. simpl in *. subst pf.
    by destruct p.
  - rewrite fmap_cons. unfold receive. simpl foldl.
    fold (receive (ArrayBuffer <$> cs) (handleMessage (ArrayBuffer c) w)).
    assert (H1 : handleMessage (ArrayBuffer c) w = push_chunk c p w).
    { unfold handleMessage. simpl. by rewrite Hp. }
    rewrite H1.
    set (p1 := {| type := type p; filename := filename p;
                  totalSize := totalSize p; totalChunks := totalChunks p;
                  chunks := chunks p ++ [c];
                  receivedSize := receivedSize p + byteLength c |}).
    assert (Ht : this (push_chunk c p w) = set_pendingFile (Some p1) (this w)).
    { unfold push_chunk, call_if. simpl.
      by destruct (onProgress (this w)). }
    assert (He : effects (push_chunk c p w) =
                 effects w ++
                 (if onProgress (this w)
                  then [call_onProgress
                          (quot (receivedSize p + byteLength c) (totalSize p))]
                  else [])).
    { unfold push_chunk, call_if. simpl.
      destruct (onProgress (this w)); simpl; [done|by rewrite app_nil_r]. }
    destruct (IH p1 (push_chunk c p w)) as [Ht' He'].
    { by rewrite Ht. }
    rewrite Ht', He', Ht, He. simpl. split.
    + replace ((chunks p ++ [c]) ++ cs) with (chunks p ++ c :: cs)
        by (by rewrite <- app_assoc).
      replace (receivedSize p + byteLength c + byteLength (concat cs))
        with (receivedSize p + byteLength (c ++ concat cs)); [done|].
      unfold byteLength. rewrite length_app. lia.
    + by rewrite <- app_assoc.
Qed.

Lemma receive_transfer ty fn N n cs w :
  let messages :=
    String_ (JSON_stringify (header_message ty fn N n))
    :: (ArrayBuffer <$> cs) ++ [String_ (JSON_stringify complete_message)] in
  let blob :=
    {| blob_parts := concat cs;
       blob_type := if String.eqb ty "pdf" then "application/pdf"
                    else "application/octet-stream" |} in
  this (receive messages w) = set_pendingFile None (this w) ∧
  effects (receive messages w) =
    effects w ++ [console_log "Receiving file:"] ++
    receive_trace (onProgress (this w)) (Js.number (inject_Z N)) 0 cs ++
    [console_log "File received"; download (Js.str fn) blob;
     console_log "File downloaded:"] ++
    (if onFileReceived (this w)
     then [call_onFileReceived (Js.str ty) (Js.str fn) blob] else []).
Proof.
  intros messages blob. unfold messages.
  unfold receive at 1 2. simpl foldl.
  fold (receive ((ArrayBuffer <$> cs) ++
                   [String_ (JSON_stringify complete_message)])
          (handleMessage
             (String_ (JSON_stringify (header_message ty fn N n))) w)).
  rewrite !receive_app, handleMessage_sent_header.
  set (p0 := {| type := Js.str ty; filename := Js.str fn;
                totalSize := Js.number (inject_Z N);
                totalChunks := Js.number (inject_Z n);
                chunks := []; receivedSize := 0 |}).
  set (w1 := with_this _ _).
  destruct (receive_chunks_world cs p0 w1 eq_refl) as [Ht He].
  set (w2 := receive _ w1) in *.
  unfold receive. simpl foldl.
  rewrite (handleMessage_sent_complete _ w2) by (by rewrite Ht).
  assert (Hcb : onFileReceived (this w2) = onFileReceived (this w))
    by (by rewrite Ht).
  assert (Hp2 : pendingFile (this w2) =
                Some {| type := Js.str ty; filename := Js.str fn;
                        totalSize := Js.number (inject_Z N);
                        totalChunks := Js.number (inject_Z n);
                        chunks := cs;
                        receivedSize := 0 + byteLength (concat cs) |})
    by (by rewrite Ht).
  unfold finalizeFile, assembled, call_if. rewrite Hp2. simpl.
  rewrite Hcb.
  destruct (onFileReceived (this w)); simpl; rewrite Ht, He; simpl;
    rewrite <- !app_assoc; by split.
Qed.


Lemma receive_trace_chunks data total (m : nat) i :
  0 ≤ i →
  receive_trace true total (Z.min (i * CHUNK_SIZE) (byteLength data))
    (chunk data <$> seqZ i (Z.of_nat m)) =
  (λ j, call_onProgress
          (quot (Z.min ((j + 1) * CHUNK_SIZE) (byteLength data)) total))
    <$> seqZ i (Z.of_nat m).
Proof.
  revert i. induction m as [|m IH]; intros i Hi; [done|].
  rewrite seqZ_cons by lia.
  replace (Z.pred (Z.of_nat (S m))) with (Z.of_nat m) by lia.
  rewrite !fmap_cons. simpl.
  assert (Hsum : Z.min (i * CHUNK_SIZE) (byteLength data) +
                 byteLength (chunk data i) =
                 Z.min ((i + 1) * CHUNK_SIZE) (byteLength data)).
  { rewrite chunk_byteLength by done.
    assert (0 < CHUNK_SIZE) by (unfold CHUNK_SIZE; lia).
    assert (0 ≤ byteLength data) by (unfold byteLength; lia). nia. }
  rewrite Hsum. f_equal.
  replace (Z.succ i) with (i + 1) by lia. apply IH. lia.
Qed.

(** X3.  On the messages of a transfer of [N] bytes, a receiver with
    [onProgress] set reports, after chunk [i], the bytes received so far over
    [N]: the numerators are [min ((i + 1) * 65536, N)], they grow strictly,
    never pass [N], and the last one is [N]. *)
Theorem receiver_progress ty fn data w :
  onProgress (this w) = true →
  let N := byteLength data in
  let n := chunk_count N in
  let messages :=
    String_ (JSON_stringify (header_message ty fn N n))
    :: (ArrayBuffer <$> (chunk data <$> seqZ 0 n))
    ++ [String_ (JSON_stringify complete_message)] in
  let so_far i := Z.min ((i + 1) * 65536) N in
  progress_calls (effects (receive messages w)) =
    progress_calls (effects w) ++
    ((λ i, quot (so_far i) (Js.number (inject_Z N))) <$> seqZ 0 n) ∧
  (∀ i, 0 ≤ i < n → 0 < so_far i ≤ N) ∧
  (∀ i j, 0 ≤ i < j → j < n → so_far i < so_far j) ∧
  (0 < n → so_far (n - 1) = N).
Proof.
  intros Hcb N n messages so_far.
  destruct (chunk_count_bounds N) as [Hn Hb]; [unfold N, byteLength; lia|].
  fold n in Hn, Hb. change CHUNK_SIZE with 65536 in Hb.
  split; [|unfold so_far; repeat split; intros; lia].
  destruct (receive_transfer ty fn N n (chunk data <$> seqZ 0 n) w)
    as [_ He].
  fold messages in He. rewrite He, Hcb. unfold progress_calls.
  rewrite !omap_app. simpl.
  rewrite <- (Z2Nat.id n) at 1 by done.
  pose proof (receive_trace_chunks data (Js.number (inject_Z N))
                (Z.to_nat n) 0 ltac:(lia)) as Ht.
  change (Z.min (0 * CHUNK_SIZE) (byteLength data)) with
    (Z.min 0 (byteLength data)) in Ht.
  rewrite Z.min_l in Ht by (unfold byteLength; lia).
  rewrite Ht, Z2Nat.id by done.
  destruct (onFileReceived (this w)); simpl; rewrite ?app_nil_r;
    f_equal; clear; induction (seqZ 0 n) as [|i l IH]; simpl; by f_equal.
Qed.

(** An instance of X3: three bytes, one report of 3 over 3. *)
Lemma receiver_progress_witness :
  progress_calls
    (effects
       (receive
          [String_ (JSON_stringify (header_message "image" "photo.jpg" 3 1));
           ArrayBuffer abc;
           String_ (JSON_stringify complete_message)]
          (world_of connected_client)))
  = [quot 3 (Js.number 3)].
Proof.
  destruct (receiver_progress "image" "photo.jpg" abc
              (world_of connected_client) eq_refl) as [H _].
  vm_compute in H. vm_compute. exact H.
Defined.

(** ** [sendImage], [sendAudio] and the empty payload *)







(** ** [requestPdf] and texts that are not part of a transfer *)

(** X6.  On an open channel [requestPdf] sends exactly one message, the text
    [{"type":"pdf_request"}], and leaves a transfer being received as it is;
    on any other channel it throws [Error('DataChannel not open')] and
    changes nothing.  The request carries neither a header nor a completion
    flag, so a peer that runs this [handleMessage] ignores it. *)
Theorem requestPdf_sends_one_request utf8_length w :
  (channel_open w →
   ∃ w', requestPdf utf8_length w = Some (inr tt, w') ∧
         effects w' =
           effects w ++
           [console_log "Requesting PDF from Tahta...";
            dc_send (gauge w)
              (String_ (JSON_stringify pdf_request_message))] ∧
         gauge w' = gauge w + utf8_length (JSON_stringify pdf_request_message) ∧
         pendingFile (this w') = pendingFile (this w)) ∧
  (¬ channel_open w →
   requestPdf utf8_length w = Some (inl (Error "DataChannel not open"), w)) ∧
  (∀ v, handleMessage (String_ (JSON_stringify pdf_request_message)) v = v).
Proof.
  split; [|split].
  - intros Ho. pose proof Ho as (dc & Hdc & Hopen). unfold requestPdf.
    rewrite Hdc, bool_decide_eq_false_2 by (intros ?; congruence).
    rewrite bind_effect.
    set (w0 := emit (console_log "Requesting PDF from Tahta...") w).
    assert (Ho0 : channel_open w0) by (by exists dc).
    destruct (channel_send_spec utf8_length
                (String_ (JSON_stringify pdf_request_message)) w0 Ho0)
      as (w1 & Hs & _ & He & Hg & _).
    exists w1. split; [done|]. split.
    { rewrite He. simpl. by rewrite <- app_assoc. }
    split; [done|].
    apply channel_send_frame in Hs as (Ht & _).
    by apply (f_equal pendingFile) in Ht.
  - intros Hn. unfold requestPdf.
    destruct (dataChannel (this w)) as [dc|] eqn:Hdc; [|done].
    rewrite bool_decide_eq_true_2; [done|].
    intros Hopen. apply Hn. by exists dc.
  - done.
Qed.

(** An instance of X6: a request on an open channel. *)
Lemma requestPdf_sends_one_request_witness :
  ∃ w', requestPdf text_size (world_of connected_client) = Some (inr tt, w') ∧
        gauge w' = 64 ∧ pendingFile (this w') = None.
Proof.
  destruct (requestPdf_sends_one_request text_size (world_of connected_client))
    as [H _].
  destruct H as (w' & Hr & _ & Hg & Hp).
  { eexists. split; reflexivity. }
  exists w'. split; [exact Hr|]. split; [exact Hg|exact Hp].
Defined.

(** X7.  A text that cannot be parsed, or that parses to [null], costs one
    console line and changes nothing of the client; a text that parses to a
    value without a header changes nothing at all unless it carries a
    completion flag while a transfer is pending. *)
Theorem stray_text_ignored t w :
  (JSON_parse t = None ∨ JSON_parse t = Some Js.null →
   handleMessage (String_ t) w =
     emit (console_log "Error handling message:") w) ∧
  (∀ msg header complete,
     JSON_parse t = Some msg →
     Js.get msg "header" = Some header → Js.truthy header = false →
     Js.get msg "complete" = Some complete →
     Js.truthy complete = false ∨ pendingFile (this w) = None →
     handleMessage (String_ t) w = w).
Proof.
  split.
  - intros [H|H]; unfold handleMessage, handleMessage_try; by rewrite H.
  - intros msg header complete Hm Hh Ht Hc Hor.
    unfold handleMessage, handleMessage_try. rewrite Hm, Hh, Ht, Hc.
    destruct Hor as [->|Hp]; [done|].
    rewrite Hp, bool_decide_eq_false_2, andb_false_r; [done|].
    by intros [? ?].
Qed.

(** An instance of X7: a text that is not JSON, in the middle of a
    transfer. *)
Lemma stray_text_ignored_witness :
  handleMessage (String_ malformed) (world_of receiving_client) =
  emit (console_log "Error handling message:") (world_of receiving_client).
Proof.
  destruct (stray_text_ignored malformed (world_of receiving_client))
    as [H _].
  apply H. by left.
Defined.

(** ** Chunks that arrive as Blobs *)

Lemma lookup_snoc_length {A} (l : list A) x : (l ++ [x]) !! length l = Some x.
Proof. by rewrite list_lookup_middle. Qed.

Lemma delete_snoc_length {A} (l : list A) x : delete (length l) (l ++ [x]) = l.
Proof. by rewrite delete_middle, app_nil_r. Qed.

(** X8.  A chunk that arrives as a Blob whose read finishes before anything
    else happens is handled exactly as the same bytes arriving as an
    ArrayBuffer. *)
Theorem blob_read_promptly b w :
  is_Some (pendingFile (this w)) →
  blob_read_done (length (reads w)) (handleMessage (Blob_ b) w) =
  handleMessage (ArrayBuffer (blob_parts b)) w.
Proof.
  intros [p Hp]. unfold handleMessage. simpl. rewrite Hp.
  unfold blob_read_done, start_read. simpl.
  rewrite lookup_snoc_length, delete_snoc_length, Hp.
  by destruct w.
Qed.

(** An instance of X8: three bytes as a Blob during the transfer of
    [receiving_client]. *)
Lemma blob_read_promptly_witness :
  blob_read_done 0
    (handleMessage (Blob_ {| blob_parts := abc; blob_type := "" |})
       (world_of receiving_client)) =
  handleMessage (ArrayBuffer abc) (world_of receiving_client).
Proof.
  apply (blob_read_promptly {| blob_parts := abc; blob_type := "" |}
           (world_of receiving_client)).
  by eexists.
Defined.

(** X9.  When the completion message is handled while the read of a Blob
    chunk is still running, the file is delivered without that chunk, and
    the end of the read then raises a TypeError that nothing catches. *)
Theorem blob_read_late b p w :
  pendingFile (this w) = Some p →
  onFileReceived (this w) = true →
  let arrived := handleMessage (Blob_ b) w in
  let completed :=
    handleMessage (String_ (JSON_stringify complete_message)) arrived in
  let finished := blob_read_done (length (reads w)) completed in
  received_files (effects completed) =
    received_files (effects w) ++ [(type p, filename p, assembled p)] ∧
  pendingFile (this completed) = None ∧
  effects finished = effects completed ++ [uncaught TypeError] ∧
  this finished = this completed.
Proof.
  intros Hp Hcb arrived completed finished.
  assert (Ha : arrived = start_read (blob_parts b) w).
  { unfold arrived, handleMessage. simpl. by rewrite Hp. }
  assert (Hc : completed = finalizeFile arrived).
  { unfold completed. apply (handleMessage_sent_complete p).
    by rewrite Ha. }
  assert (Hshape : completed =
            with_this (set_pendingFile None)
              (emit (call_onFileReceived (type p) (filename p) (assembled p))
                 (emit (console_log "File downloaded:")
                    (emit (download (filename p) (assembled p))
                       (emit (console_log "File received")
                          (start_read (blob_parts b) w)))))).
  { rewrite Hc, Ha. unfold finalizeFile, call_if. simpl.
    by rewrite Hp, Hcb. }
  split; [|split].
  - rewrite Hshape. simpl. unfold received_files.
    rewrite !omap_app. simpl. by rewrite !app_nil_r.
  - by rewrite Hshape.
  - unfold finished, blob_read_done. rewrite Hshape. simpl.
    by rewrite lookup_snoc_length.
Qed.

(** An instance of X9: the Blob of three bytes is lost. *)
Lemma blob_read_late_witness :
  received_files
    (effects
       (handleMessage (String_ (JSON_stringify complete_message))
          (handleMessage (Blob_ {| blob_parts := abc; blob_type := "" |})
             (world_of receiving_client)))) =
  [(Js.str "image", Js.str "photo.jpg",
    {| blob_parts := abc; blob_type := "application/octet-stream" |})].
Proof.
  destruct (blob_read_late {| blob_parts := abc; blob_type := "" |} _
              (world_of receiving_client) eq_refl eq_refl) as [H _].
  exact H.
Defined.

Lemma blob_read_done_pending k ab p w :
  reads w !! k = Some ab →
  pendingFile (this w) = Some p →
  pendingFile (this (blob_read_done k w)) =
    Some {| type := type p; filename := filename p;
            totalSize := totalSize p; totalChunks := totalChunks p;
            chunks := chunks p ++ [ab];
            receivedSize := receivedSize p + byteLength ab |} ∧
  reads (blob_read_done k w) = delete k (reads w).
Proof.
  intros Hk Hp. unfold blob_read_done. rewrite Hk. simpl. rewrite Hp.
  unfold push_chunk, call_if. simpl. by destruct (onProgress (this w)).
Qed.

(** X10.  Blob chunks are stored in the order in which their reads finish,
    not in the order in which they arrived: when the read of the second of
    two Blobs finishes first, it is stored first. *)
Theorem blob_reads_out_of_order b1 b2 p w :
  pendingFile (this w) = Some p →
  let arrived := handleMessage (Blob_ b2) (handleMessage (Blob_ b1) w) in
  let finished :=
    blob_read_done (length (reads w))
      (blob_read_done (S (length (reads w))) arrived) in
  ∃ p', pendingFile (this finished) = Some p' ∧
        chunks p' = chunks p ++ [blob_parts b2; blob_parts b1] ∧
        reads finished = reads w.
Proof.
  intros Hp arrived finished.
  assert (Ha : pendingFile (this arrived) = Some p ∧
               reads arrived = (reads w ++ [blob_parts b1]) ++ [blob_parts b2]).
  { unfold arrived, handleMessage. simpl. rewrite Hp. simpl. by rewrite Hp. }
  destruct Ha as [Hpa Hra].
  destruct (blob_read_done_pending (S (length (reads w))) (blob_parts b2)
              p arrived) as [Hp1 Hr1]; [|done|].
  { rewrite Hra.
    replace (S (length (reads w)))
      with (length (reads w ++ [blob_parts b1]))
      by (rewrite length_app; simpl; lia).
    apply lookup_snoc_length. }
  rewrite Hra in Hr1.
  replace (S (length (reads w)))
    with (length (reads w ++ [blob_parts b1])) in Hr1 at 2
    by (rewrite length_app; simpl; lia).
  rewrite delete_snoc_length in Hr1.
  destruct (blob_read_done_pending (length (reads w)) (blob_parts b1) _ _
              ltac:(rewrite Hr1; apply lookup_snoc_length) Hp1)
    as [Hp2 Hr2].
  rewrite Hr1, delete_snoc_length in Hr2.
  eexists. split; [exact Hp2|]. split; [|exact Hr2].
  simpl. by rewrite <- app_assoc.
Qed.

(** An instance of X10 at [receiving_client]. *)
Lemma blob_reads_out_of_order_witness :
  ∃ p', pendingFile
          (this
             (blob_read_done 0
                (blob_read_done 1
                   (handleMessage
                      (Blob_ {| blob_parts := []; blob_type := "" |})
                      (handleMessage
                         (Blob_ {| blob_parts := abc; blob_type := "" |})
                         (world_of receiving_client))))))
        = Some p' ∧
        chunks p' = [abc] ++ [[]; abc].
Proof.
  destruct (blob_reads_out_of_order
              {| blob_parts := abc; blob_type := "" |}
              {| blob_parts := []; blob_type := "" |} _
              (world_of receiving_client) eq_refl) as (p' & Hp' & Hc & _).
  exists p'. split; [exact Hp'|exact Hc].
Defined.

(** ** The count of received bytes *)

Lemma push_chunk_consistent ab p w :
  pendingFile (this w) = Some p →
  pending_consistent w → pending_consistent (push_chunk ab p w).
Proof.
  intros Hp Hc p'. unfold push_chunk, call_if. simpl.
  specialize (Hc p Hp).
  destruct (onProgress (this w)); simpl; intros [= <-]; simpl;
    rewrite concat_app; simpl; rewrite app_nil_r;
    unfold byteLength in *; rewrite length_app; lia.
Qed.

Lemma handleMessage_consistent data w :
  pending_consistent w → pending_consistent (handleMessage data w).
Proof.
  intros Hc. unfold handleMessage, handleMessage_try.
  destruct data as [t|ab|b].
  - destruct (JSON_parse t) as [msg|]; [|done].
    destruct (Js.get msg "header") as [header|]; [|done].
    destruct (Js.truthy header).
    + destruct (Js.get header "filename"); [|done].
      destruct (Js.get header "type"), (Js.get header "totalSize"),
        (Js.get header "totalChunks"); try done.
      intros p. simpl. by intros [= <-].
    + destruct (Js.get msg "complete") as [c|]; [|done].
      destruct (Js.truthy c && bool_decide (is_Some (pendingFile (this w))));
        [|done].
      unfold finalizeFile. destruct (pendingFile (this w)); [|done].
      intros p'. unfold call_if. simpl.
      by destruct (onFileReceived (this w)).
  - destruct (pendingFile (this w)) eqn:Hp; [|done].
    by apply push_chunk_consistent.
  - by destruct (pendingFile (this w)).
Qed.

Lemma consistent_same_pending w w' :
  pendingFile (this w') = pendingFile (this w) →
  pending_consistent w → pending_consistent w'.
Proof. intros He Hc p. rewrite He. apply Hc. Qed.

Lemma react_consistent m w :
  pending_consistent w → pending_consistent (react m w).
Proof.
  intros Hc.
  destruct m as [| |e|d|s|s|id|k]; simpl;
    [apply (consistent_same_pending w); [|done]
    |apply (consistent_same_pending w); [|done]
    |apply (consistent_same_pending w); [|done]
    |by apply handleMessage_consistent
    |apply (consistent_same_pending w); [|done]
    |apply (consistent_same_pending w); [|done]
    |apply (consistent_same_pending w); [|done]
    |].
  - unfold dataChannel_onopen, call_if, clearConnectionTimeout,
      set_readyState.
    repeat (simpl; case_match); done.
  - unfold dataChannel_onclose, call_if, set_readyState.
    repeat (simpl; case_match); done.
  - unfold dataChannel_onerror, call_if. by repeat (simpl; case_match).
  - unfold pc_onconnectionstatechange, set_pc_state,
      clearConnectionTimeout, call_if.
    repeat (simpl; case_match); done.
  - unfold pc_oniceconnectionstatechange, set_pc_state.
    repeat (simpl; case_match); done.
  - unfold connection_timeout_handler. repeat (simpl; case_match); done.
  - unfold blob_read_done. destruct (reads w !! k); [|done]. simpl.
    destruct (pendingFile (this w)) eqn:Hp; [|done].
    by apply push_chunk_consistent.
Qed.

(** X11.  The receiver's count is exact: through any events, and through
    [connect] and [disconnect], [receivedSize] of a pending transfer is the
    number of bytes held in its chunks, which is the size of the Blob that
    [finalizeFile] would deliver. *)
Theorem received_size_counts_chunks moves outcome w :
  pending_consistent w →
  pending_consistent (run moves w) ∧
  pending_consistent (disconnect w) ∧
  pending_consistent (connect outcome w).2.
Proof.
  intros Hc. split; [|split].
  - revert w Hc. induction moves as [|m moves IH]; intros w Hc; [done|].
    unfold run. simpl. apply IH. by apply react_consistent.
  - apply (consistent_same_pending w); [|done].
    unfold disconnect, clearConnectionTimeout.
    repeat (simpl; case_match); done.
  - apply (consistent_same_pending w); [|done].
    unfold connect, connect_catch, call_if.
    repeat (simpl; case_match); done.
Qed.

(** An instance of X11: a header, then three bytes, at a fresh client. *)
Lemma received_size_counts_chunks_witness :
  pending_consistent
    (run [channel_message
            (String_ (JSON_stringify (header_message "image" "a.jpg" 3 1)));
          channel_message (ArrayBuffer abc)]
       (world_of fresh_client)).
Proof.
  destruct (received_size_counts_chunks
              [channel_message
                 (String_ (JSON_stringify (header_message "image" "a.jpg" 3 1)));
               channel_message (ArrayBuffer abc)]
              offer_ok (world_of fresh_client)) as [H _].
  - intros p. discriminate.
  - exact H.
Defined.

(** ** Ending and restarting an attempt *)

Lemma cancellable_same id w w' :
  timers w' = timers w →
  connectionTimeout (this w') = connectionTimeout (this w) →
  cancellable id w → cancellable id w'.
Proof. unfold cancellable. intros -> ->. done. Qed.

Lemma cancellable_clear id w :
  cancellable id w → cancellable id (clearConnectionTimeout w).
Proof.
  unfold cancellable, clearConnectionTimeout. intros Hc.
  destruct (connectionTimeout (this w)) as [id'|] eqn:E; [|by rewrite E].
  simpl. intros [Hin Hne]%elem_of_difference.
  destruct Hne. apply elem_of_singleton. specialize (Hc Hin). congruence.
Qed.

Lemma cancellable_spent id id' w :
  cancellable id w → cancellable id (clearTimeout id' w).
Proof.
  unfold cancellable. simpl. intros Hc [Hin _]%elem_of_difference. auto.
Qed.

Lemma set_readyState_frame s w :
  timers (with_this (set_readyState s) w) = timers w ∧
  connectionTimeout (this (with_this (set_readyState s) w))
    = connectionTimeout (this w).
Proof. unfold set_readyState. simpl. by destruct (dataChannel (this w)). Qed.

Lemma dataChannel_onopen_cancellable id w :
  cancellable id w → cancellable id (dataChannel_onopen w).
Proof.
  intros Hc.
  apply (cancellable_same id (clearConnectionTimeout w));
    [| |by apply cancellable_clear];
    unfold dataChannel_onopen, call_if, clearConnectionTimeout; simpl;
    destruct (connectionTimeout (this w)); simpl;
    by destruct (onConnected (this w)).
Qed.

Lemma dataChannel_onclose_cancellable id w :
  cancellable id w → cancellable id (dataChannel_onclose w).
Proof.
  intros Hc. apply (cancellable_same id w); [| |done];
    unfold dataChannel_onclose, call_if; simpl;
    by destruct (onDisconnected (this w)).
Qed.

Lemma react_cancellable id m w : cancellable id w → cancellable id (react m w).
Proof.
  intros Hc. destruct m as [| |e|d|s|s|id'|k]; simpl.
  - apply dataChannel_onopen_cancellable.
    destruct (set_readyState_frame open w) as [Ht Hct].
    by apply (cancellable_same id w).
  - apply dataChannel_onclose_cancellable.
    destruct (set_readyState_frame closed w) as [Ht Hct].
    by apply (cancellable_same id w).
  - apply (cancellable_same id w); [| |done];
      unfold dataChannel_onerror, call_if; simpl;
      by destruct (onError (this w)).
  - destruct (handleMessage_frame d w) as (Hct & Ht & _).
    by apply (cancellable_same id w).
  - unfold pc_onconnectionstatechange, set_pc_state. simpl.
    destruct (pc (this w)) eqn:Epc; simpl; [|done].
    destruct s; simpl; try done.
    + apply (cancellable_same id (clearConnectionTimeout w));
        [| |by apply cancellable_clear];
        unfold clearConnectionTimeout; simpl;
        by destruct (connectionTimeout (this w)).
    + apply (cancellable_same id w); [| |done];
        unfold call_if; simpl; by destruct (onDisconnected (this w)).
    + apply (cancellable_same id (clearConnectionTimeout w));
        [| |by apply cancellable_clear];
        unfold clearConnectionTimeout, call_if; simpl;
        destruct (connectionTimeout (this w)); simpl;
        by destruct (onError (this w)).
    + apply (cancellable_same id w); [| |done];
        unfold call_if; simpl; by destruct (onDisconnected (this w)).
  - apply (cancellable_same id w); [| |done];
      unfold pc_oniceconnectionstatechange, set_pc_state; simpl;
      destruct (pc (this w)); simpl; try done;
      destruct s; simpl; try done; by destruct (isIOSSafari w).
  - case_bool_decide; [|done].
    apply (cancellable_same id (clearTimeout id' w));
      [| |by apply cancellable_spent];
      unfold connection_timeout_handler; simpl;
      destruct (isConnected (this w)); simpl; try done;
      by destruct (isIOSSafari w).
  - apply (cancellable_same id w); [| |done];
      unfold blob_read_done; destruct (reads w !! k); try done; simpl;
      destruct (pendingFile (this w)); try done;
      unfold push_chunk, call_if; simpl; by destruct (onProgress (this w)).
Qed.

Lemma run_cancellable id moves w :
  cancellable id w → cancellable id (run moves w).
Proof.
  revert w. induction moves as [|m moves IH]; intros w Hc; [done|].
  unfold run. simpl. apply IH. by apply react_cancellable.
Qed.

Lemma spent_timer_noop id w : id ∉ timers w → react (timer_fires id) w = w.
Proof. intros Hout. unfold react. by rewrite bool_decide_eq_false_2. Qed.

Lemma disconnect_fields w :
  timers (disconnect w) =
    match connectionTimeout (this w) with
    | Some id => timers w ∖ {[id]}
    | None => timers w
    end ∧
  dataChannel (this (disconnect w)) = None ∧
  pc (this (disconnect w)) = None ∧
  isConnected (this (disconnect w)) = false ∧
  connectionTimeout (this (disconnect w)) = None.
Proof.
  unfold disconnect, clearConnectionTimeout. simpl.
  destruct (connectionTimeout (this w)) eqn:E; simpl; by repeat split.
Qed.

(** X12.  [disconnect] ends the attempt whatever has happened since
    [connect]: the timeout of the attempt is no longer pending and its
    handler cannot run any more, the client holds no channel and no peer
    connection, and [sendFile] and [requestPdf] throw
    [Error('DataChannel not open')] without any effect. *)
Theorem disconnect_ends_attempt
    utf8_length drain polls ty fn data (moves : list Move) (w : World) :
  let id := next_timer w in
  let after := disconnect (run moves (connect offer_ok w).2) in
  (id ∉ timers after) ∧
  react (timer_fires id) after = after ∧
  dataChannel (this after) = None ∧ pc (this after) = None ∧
  isConnected (this after) = false ∧ connectionTimeout (this after) = None ∧
  sendFile utf8_length drain polls ty fn data after
    = Some (inl (Error "DataChannel not open"), after) ∧
  requestPdf utf8_length after
    = Some (inl (Error "DataChannel not open"), after).
Proof.
  intros id0 after.
  assert (Hc : cancellable id0 (run moves (connect offer_ok w).2)).
  { apply run_cancellable. by intros _. }
  destruct (disconnect_fields (run moves (connect offer_ok w).2))
    as (Htimers & Hdc & Hpc & Hic & Hct).
  fold after in Htimers, Hdc, Hpc, Hic, Hct.
  assert (Hout : id0 ∉ timers after).
  { rewrite Htimers. unfold cancellable in Hc.
    destruct (connectionTimeout (this (run moves (connect offer_ok w).2)))
      as [id'|] eqn:E.
    - intros [Hin Hne]%elem_of_difference. apply Hne, elem_of_singleton.
      specialize (Hc Hin). congruence.
    - intros Hin. by specialize (Hc Hin). }
  split; [exact Hout|]. split; [by apply spent_timer_noop|].
  split; [exact Hdc|]. split; [exact Hpc|]. split; [exact Hic|].
  split; [exact Hct|]. split.
  - apply sendFile_not_open_any. by left.
  - unfold requestPdf. by rewrite Hdc.
Qed.

(** X13.  A second [disconnect] changes nothing of the client or of the
    timers; it only repeats its two console lines and the call of
    [signaling.cleanup()]. *)
Theorem disconnect_twice w :
  let once := disconnect w in
  let twice := disconnect once in
  this twice = this once ∧ timers twice = timers once ∧
  effects twice =
    effects once ++
    [console_log "Disconnecting..."; signaling_call "cleanup";
     console_log "Disconnected"].
Proof.
  intros once twice.
  destruct (disconnect_fields w) as (_ & Hdc & Hpc & Hic & Hct).
  fold once in Hdc, Hpc, Hic, Hct. unfold twice. clearbody once.
  unfold disconnect, clearConnectionTimeout. simpl.
  rewrite Hct. simpl. split; [|split; [done|by rewrite <- !app_assoc]].
  destruct (this once). simpl in *. by subst.
Qed.

Lemma set_readyState_callbacks s w :
  effects (with_this (set_readyState s) w) = effects w ∧
  onConnected (this (with_this (set_readyState s) w)) = onConnected (this w).
Proof. unfold set_readyState. simpl. by destruct (dataChannel (this w)). Qed.

Lemma dataChannel_onopen_fields id w :
  connectionTimeout (this w) = Some id →
  isConnected (this (dataChannel_onopen w)) = true ∧
  connectionTimeout (this (dataChannel_onopen w)) = None ∧
  timers (dataChannel_onopen w) = timers w ∖ {[id]} ∧
  effects (dataChannel_onopen w) =
    effects w ++ [console_log "DataChannel OPEN"] ++
    (if onConnected (this w) then [call_onConnected] else []).
Proof.
  intros Hct. unfold dataChannel_onopen, call_if, clearConnectionTimeout.
  simpl. rewrite Hct. simpl.
  destruct (onConnected (this w)); simpl; repeat split;
    by rewrite <- ?app_assoc, ?app_nil_r.
Qed.

(** X14.  When the data channel opens during an attempt, [isConnected]
    becomes true, [onConnected] is called once when it is set, and the
    timeout of the attempt is cancelled: its handler cannot run any more. *)
Theorem channel_open_cancels_timeout (moves : list Move) (w : World) :
  isConnected (this w) = false →
  let id := next_timer w in
  Forall (λ m, still_negotiating id m = true) moves →
  let before := run moves (connect offer_ok w).2 in
  let opened := react channel_opens before in
  isConnected (this opened) = true ∧
  connectionTimeout (this opened) = None ∧
  (id ∉ timers opened) ∧
  effects opened =
    effects before ++ [console_log "DataChannel OPEN"] ++
    (if onConnected (this before) then [call_onConnected] else []) ∧
  react (timer_fires id) opened = opened.
Proof.
  intros Hc id0 Hall before opened.
  destruct (connect_awaiting w Hc) as [_ Ha].
  assert (Hb : awaiting id0 before) by (by apply run_awaiting).
  destruct Hb as (Ht & Hin & _).
  destruct (set_readyState_frame open before) as [Ht0 Hct0].
  destruct (set_readyState_callbacks open before) as [He0 Hcb0].
  destruct (dataChannel_onopen_fields id0
              (with_this (set_readyState open) before))
    as (Hic & Hct & Htm & He); [congruence|].
  fold (react channel_opens before) in Hic, Hct, Htm, He.
  fold opened in Hic, Hct, Htm, He.
  assert (Hout : id0 ∉ timers opened).
  { rewrite Htm. intros [_ Hne]%elem_of_difference.
    by apply Hne, elem_of_singleton. }
  split; [exact Hic|]. split; [exact Hct|]. split; [exact Hout|].
  split; [by rewrite He, He0, Hcb0|by apply spent_timer_noop].
Qed.

(** An instance of X14: a fresh client connects and the channel opens. *)
Lemma channel_open_cancels_timeout_witness :
  isConnected
    (this (react channel_opens
             (run [] (connect offer_ok (world_of fresh_client)).2))) = true.
Proof.
  destruct (channel_open_cancels_timeout [] (world_of fresh_client) eq_refl)
    as (H & _); [constructor|exact H].
Defined.

Lemma handleMessage_this data w :
  ∃ pf, this (handleMessage data w) = set_pendingFile pf (this w).
Proof.
  assert (Hsame : this w = set_pendingFile (pendingFile (this w)) (this w))
    by (by destruct (this w)).
  unfold handleMessage, handleMessage_try.
  destruct data as [t|ab|b].
  - destruct (JSON_parse t) as [msg|]; [|by eexists].
    destruct (Js.get msg "header") as [header|]; [|by eexists].
    destruct (Js.truthy header).
    + destruct (Js.get header "filename"); [|by eexists].
      destruct (Js.get header "type"), (Js.get header "totalSize"),
        (Js.get header "totalChunks"); by eexists.
    + destruct (Js.get msg "complete") as [c|]; [|by eexists].
      destruct (Js.truthy c && bool_decide (is_Some (pendingFile (this w))));
        [|by eexists].
      unfold finalizeFile. destruct (pendingFile (this w)); [|by eexists].
      unfold call_if. simpl. destruct (onFileReceived (this w)); by eexists.
  - destruct (pendingFile (this w)); [|by eexists].
    unfold push_chunk, call_if. simpl.
    destruct (onProgress (this w)); by eexists.
  - destruct (pendingFile (this w)); by eexists.
Qed.

Lemma call_if_this slot e w : this (call_if slot e w) = this w.
Proof. unfold call_if. by destruct (slot (this w)). Qed.

Lemma clearConnectionTimeout_pc w :
  pc (this (clearConnectionTimeout w)) = pc (this w).
Proof.
  unfold clearConnectionTimeout. by destruct (connectionTimeout (this w)).
Qed.

Lemma set_readyState_pc s c : pc (set_readyState s c) = pc c.
Proof. unfold set_readyState. by destruct (dataChannel c). Qed.

Lemma dataChannel_onopen_pc w : pc (this (dataChannel_onopen w)) = pc (this w).
Proof.
  unfold dataChannel_onopen. rewrite call_if_this. simpl.
  by rewrite clearConnectionTimeout_pc.
Qed.

Lemma dataChannel_onclose_pc w :
  pc (this (dataChannel_onclose w)) = pc (this w).
Proof. unfold dataChannel_onclose. by rewrite call_if_this. Qed.

Lemma pc_onconnectionstatechange_pc w :
  pc (this (pc_onconnectionstatechange w)) = pc (this w).
Proof.
  unfold pc_onconnectionstatechange. destruct (pc (this w)) as [p|] eqn:E;
    [|done].
  destruct (connectionState p); rewrite ?call_if_this; simpl;
    rewrite ?clearConnectionTimeout_pc; done.
Qed.

Lemma pc_oniceconnectionstatechange_pc w :
  pc (this (pc_oniceconnectionstatechange w)) = pc (this w).
Proof.
  unfold pc_oniceconnectionstatechange.
  destruct (pc (this w)) as [p|] eqn:E; [|done].
  destruct (iceConnectionState p); simpl; try done.
  by destruct (isIOSSafari w).
Qed.

Lemma react_pc m w :
  is_Some (pc (this w)) → is_Some (pc (this (react m w))).
Proof.
  intros Hpc. destruct m as [| |e|d|s|s|id'|k]; unfold react.
  - rewrite dataChannel_onopen_pc. simpl. by rewrite set_readyState_pc.
  - rewrite dataChannel_onclose_pc. simpl. by rewrite set_readyState_pc.
  - unfold dataChannel_onerror. by rewrite call_if_this.
  - destruct (handleMessage_this d w) as [pf ->]. done.
  - rewrite pc_onconnectionstatechange_pc. simpl.
    by apply fmap_is_Some.
  - rewrite pc_oniceconnectionstatechange_pc. simpl.
    by apply fmap_is_Some.
  - case_bool_decide; [|done]. unfold connection_timeout_handler. simpl.
    destruct (isConnected (this w)); simpl; [done|].
    by destruct (isIOSSafari w).
  - unfold blob_read_done. destruct (reads w !! k); [|done]. simpl.
    destruct (pendingFile (this w)); [|done].
    unfold push_chunk. by rewrite call_if_this.
Qed.

Lemma run_pc moves w :
  is_Some (pc (this w)) → is_Some (pc (this (run moves w))).
Proof.
  revert w. induction moves as [|m moves IH]; intros w Hpc; [done|].
  unfold run. simpl. apply IH. by apply react_pc.
Qed.

Lemma pc_connected_fields id p w :
  pc (this w) = Some p →
  connectionState p = cs_connected →
  connectionTimeout (this w) = Some id →
  isConnected (this (pc_onconnectionstatechange w)) = isConnected (this w) ∧
  connectionTimeout (this (pc_onconnectionstatechange w)) = None ∧
  timers (pc_onconnectionstatechange w) = timers w ∖ {[id]} ∧
  effects (pc_onconnectionstatechange w) =
    effects w ++
    [console_log "Connection state:"; signaling_call "updateStatus"].
Proof.
  intros Hpc Hs Hct. unfold pc_onconnectionstatechange, clearConnectionTimeout.
  rewrite Hpc, Hs. simpl. rewrite Hct. simpl.
  repeat split. by rewrite <- app_assoc.
Qed.

(** X15.  When the peer connection reports [connected] during an attempt,
    the timeout of the attempt is cancelled and the status is published, but
    [isConnected] stays false until the data channel opens: from then on the
    attempt has no timeout. *)
Theorem pc_connected_cancels_timeout (moves : list Move) (w : World) :
  isConnected (this w) = false →
  let id := next_timer w in
  Forall (λ m, still_negotiating id m = true) moves →
  let before := run moves (connect offer_ok w).2 in
  let after := react (connection_state cs_connected) before in
  isConnected (this after) = false ∧
  connectionTimeout (this after) = None ∧
  (id ∉ timers after) ∧
  effects after =
    effects before ++
    [console_log "Connection state:"; signaling_call "updateStatus"] ∧
  react (timer_fires id) after = after.
Proof.
  intros Hc id0 Hall before after.
  destruct (connect_awaiting w Hc) as [_ Ha].
  assert (Hb : awaiting id0 before) by (by apply run_awaiting).
  destruct Hb as (Ht & Hin & Hic).
  assert (Hpc : is_Some (pc (this before))).
  { apply run_pc. unfold connect. simpl. by eexists. }
  destruct Hpc as [p Hp].
  destruct (pc_connected_fields id0
              {| connectionState := cs_connected;
                 iceConnectionState := iceConnectionState p |}
              (with_this
                 (set_pc_state
                    (λ p, {| connectionState := cs_connected;
                             iceConnectionState := iceConnectionState p |}))
                 before))
    as (Hic' & Hct & Htm & He).
  { unfold set_pc_state. simpl. by rewrite Hp. }
  { done. }
  { done. }
  fold (react (connection_state cs_connected) before) in Hic', Hct, Htm, He.
  fold after in Hic', Hct, Htm, He. simpl in Hic', Htm, He.
  assert (Hout : id0 ∉ timers after).
  { rewrite Htm. intros [_ Hne]%elem_of_difference.
    by apply Hne, elem_of_singleton. }
  split; [by rewrite Hic'|]. split; [exact Hct|]. split; [exact Hout|].
  split; [exact He|by apply spent_timer_noop].
Qed.

(** An instance of X15: the peer connection of a fresh client connects. *)
Lemma pc_connected_cancels_timeout_witness :
  isConnected
    (this (react (connection_state cs_connected)
             (run [] (connect offer_ok (world_of fresh_client)).2))) = false.
Proof.
  destruct (pc_connected_cancels_timeout [] (world_of fresh_client) eq_refl)
    as (H & _); [constructor|exact H].
Defined.

(** ** A [connect] that fails *)

Lemma connect_catch_fields e w :
  (connect_catch e w).1 = inl e ∧
  this (connect_catch e w).2 = this w ∧
  timers (connect_catch e w).2 = timers w ∧
  effects (connect_catch e w).2 =
    effects w ++ [console_log "WebRTC connect ERROR"] ++
    (if onError (this w) then [call_onError e] else []).
Proof.
  unfold connect_catch, call_if. simpl.
  destruct (onError (this w)); simpl; repeat split.
  by rewrite <- app_assoc.
Qed.

(** X16.  When [createOffer] or [setLocalDescription] rejects, [connect]
    rethrows the error after calling [onError] (if set) once, and arms no
    timeout; it does not undo what it did before: the peer connection and
    the data channel it created stay in place, so a later [sendFile] finds a
    channel that is not open and throws. *)
Theorem connect_rejected (browser : OfferOutcome) (e : Exception) (w : World) :
  browser = createOffer_rejects e ∨ browser = setLocalDescription_rejects e →
  let w' := (connect browser w).2 in
  (connect browser w).1 = inl e ∧
  timers w' = timers w ∧
  connectionTimeout (this w') = connectionTimeout (this w) ∧
  isConnected (this w') = isConnected (this w) ∧
  is_Some (pc (this w')) ∧
  dataChannel (this w') =
    Some {| readyState := connecting; bufferedAmount := 0 |} ∧
  filter (λ x, is_failure_signal x = true) (effects w') =
    filter (λ x, is_failure_signal x = true) (effects w) ++
    (if onError (this w) then [call_onError e] else []) ∧
  ∀ utf8_length drain polls ty fn data,
    sendFile utf8_length drain polls ty fn data w' =
      Some (inl (Error "DataChannel not open"), w').
Proof.
  intros Hb w'.
  assert (H : ∃ w0,
    connect browser w = connect_catch e w0 ∧
    this w0 =
      set_dataChannel
        (Some {| readyState := connecting; bufferedAmount := 0 |})
        (set_pc (Some {| connectionState := cs_new;
                         iceConnectionState := ice_new |}) (this w)) ∧
    timers w0 = timers w ∧
    ∃ logs, effects w0 = effects w ++ logs ∧
            Forall (λ x, is_failure_signal x = false) logs).
  { destruct Hb as [-> | ->]; unfold connect; eexists;
      (split; [reflexivity|]); simpl; (split; [reflexivity|]);
      (split; [reflexivity|]); eexists;
      (split; [by rewrite <- !app_assoc|]); by repeat constructor. }
  destruct H as (w0 & Hc & Hthis & Htm & logs & He & Hlogs).
  destruct (connect_catch_fields e w0) as (Hr & Hthis' & Htm' & He').
  unfold w'. rewrite Hc. rewrite Hthis', Htm', He', Hthis, Htm, He. simpl.
  split; [exact Hr|]. split; [done|]. split; [done|]. split; [done|].
  split; [by eexists|]. split; [done|]. split.
  - rewrite !filter_app. f_equal.
    + assert (Hnil : filter (λ x, is_failure_signal x = true) logs = []).
      { clear -Hlogs. induction Hlogs as [|x l Hx _ IH]; [done|].
        rewrite filter_cons. rewrite decide_False by congruence. done. }
      by rewrite Hnil, app_nil_r.
    + by destruct (onError (this w)).
  - intros. apply sendFile_not_open_any. right. eexists.
    rewrite call_if_this. simpl. rewrite Hthis. split; [reflexivity|done].
Qed.

(** An instance of X16: [createOffer] rejects on a fresh client. *)
Lemma connect_rejected_witness :
  (connect (createOffer_rejects (Error "no offer")) (world_of fresh_client)).1
    = inl (Error "no offer") ∧
  timers (connect (createOffer_rejects (Error "no offer"))
            (world_of fresh_client)).2 = ∅.
Proof.
  destruct (connect_rejected (createOffer_rejects (Error "no offer"))
              (Error "no offer") (world_of fresh_client) (or_introl eq_refl))
    as (Hr & Ht & _).
  split; [exact Hr|exact Ht].
Defined.

Lemma timer_fires_unconnected id w :
  id ∈ timers w → isConnected (this w) = false →
  effects (react (timer_fires id) w) =
    effects w ++
    [console_log "CONNECTION TIMEOUT after 30 seconds";
     console_log "Final states - ICE:"] ++
    (if isIOSSafari w then [alert "Connection timeout. States:"] else []).
Proof.
  intros Hin Hic. unfold react. rewrite bool_decide_eq_true_2 by exact Hin.
  unfold connection_timeout_handler, clearTimeout. simpl. rewrite Hic. simpl.
  destruct (isIOSSafari w); simpl; by rewrite <- ?app_assoc.
Qed.

Lemma connect_ok_fields w :
  connectionTimeout (this (connect offer_ok w).2) = Some (next_timer w) ∧
  timers (connect offer_ok w).2 = {[next_timer w]} ∪ timers w ∧
  next_timer (connect offer_ok w).2 = Pos.succ (next_timer w) ∧
  isIOSSafari (connect offer_ok w).2 = isIOSSafari w.
Proof. unfold connect. simpl. by repeat split. Qed.

Lemma disconnect_isIOSSafari w : isIOSSafari (disconnect w) = isIOSSafari w.
Proof.
  unfold disconnect, clearConnectionTimeout. simpl.
  by destruct (connectionTimeout (this w)).
Qed.

(** X17.  [connect] overwrites [connectionTimeout] without clearing it: after
    two attempts the timeout of the first is out of the client's reach.
    [disconnect] cancels only the second; the first still fires, and on a
    client that has disconnected it reports a connection timeout. *)
Theorem superseded_timeout_fires (w : World) :
  let id := next_timer w in
  let twice := (connect offer_ok (connect offer_ok w).2).2 in
  let after := disconnect twice in
  connectionTimeout (this twice) = Some (Pos.succ id) ∧
  connectionTimeout (this after) = None ∧
  id ∈ timers after ∧
  (Pos.succ id ∉ timers after) ∧
  effects (react (timer_fires id) after) =
    effects after ++
    [console_log "CONNECTION TIMEOUT after 30 seconds";
     console_log "Final states - ICE:"] ++
    (if isIOSSafari w then [alert "Connection timeout. States:"] else []).
Proof.
  intros id0 twice after.
  destruct (connect_ok_fields w) as (Hct1 & Htm1 & Hn1 & Hios1).
  destruct (connect_ok_fields (connect offer_ok w).2)
    as (Hct & Htw & _ & Hios).
  fold twice in Hct, Htw, Hios.
  rewrite Hn1 in Hct. rewrite Hn1, Htm1 in Htw. rewrite Hios1 in Hios.
  fold id0 in Hct, Htw.
  clearbody twice.
  destruct (disconnect_fields twice) as (Htm & _ & _ & Hic & Hnone).
  fold after in Htm, Hic, Hnone. rewrite Hct in Htm.
  assert (Hios' : isIOSSafari after = isIOSSafari w).
  { exact (eq_trans (disconnect_isIOSSafari twice) Hios). }
  assert (Hin : id0 ∈ timers after).
  { rewrite Htm, Htw. apply elem_of_difference. split.
    - apply elem_of_union_r, elem_of_union_l. by apply elem_of_singleton.
    - rewrite elem_of_singleton. lia. }
  split; [exact Hct|]. split; [exact Hnone|]. split; [exact Hin|]. split.
  { rewrite Htm. intros [_ Hne]%elem_of_difference.
    by apply Hne, elem_of_singleton. }
  rewrite <- Hios'. apply timer_fires_unconnected; [exact Hin|exact Hic].
Qed.

(** ** A transfer being received and the life of the connection *)

Lemma clearConnectionTimeout_pending w :
  pendingFile (this (clearConnectionTimeout w)) = pendingFile (this w).
Proof.
  unfold clearConnectionTimeout. by destruct (connectionTimeout (this w)).
Qed.

Lemma set_readyState_pending s c :
  pendingFile (set_readyState s c) = pendingFile c.
Proof. unfold set_readyState. by destruct (dataChannel c). Qed.

Lemma set_pc_state_pending f c : pendingFile (set_pc_state f c) = pendingFile c.
Proof. done. Qed.

Lemma dataChannel_onopen_pending w :
  pendingFile (this (dataChannel_onopen w)) = pendingFile (this w).
Proof.
  unfold dataChannel_onopen. rewrite call_if_this. simpl.
  by rewrite clearConnectionTimeout_pending.
Qed.

Lemma pc_onconnectionstatechange_pending w :
  pendingFile (this (pc_onconnectionstatechange w)) = pendingFile (this w).
Proof.
  unfold pc_onconnectionstatechange. destruct (pc (this w)) as [p|]; [|done].
  destruct (connectionState p); rewrite ?call_if_this; simpl;
    rewrite ?clearConnectionTimeout_pending; done.
Qed.

Lemma pc_oniceconnectionstatechange_pending w :
  pendingFile (this (pc_oniceconnectionstatechange w)) = pendingFile (this w).
Proof.
  unfold pc_oniceconnectionstatechange.
  destruct (pc (this w)) as [p|]; [|done].
  destruct (iceConnectionState p); simpl; try done.
  by destruct (isIOSSafari w).
Qed.

Lemma react_pending m w :
  carries_data m = false →
  pendingFile (this (react m w)) = pendingFile (this w).
Proof.
  destruct m as [| |e|d|s|s|id'|k]; intros Hm; try discriminate; unfold react.
  - rewrite dataChannel_onopen_pending. simpl. apply set_readyState_pending.
  - unfold dataChannel_onclose. rewrite call_if_this. simpl.
    apply set_readyState_pending.
  - unfold dataChannel_onerror. by rewrite call_if_this.
  - by rewrite pc_onconnectionstatechange_pending.
  - by rewrite pc_oniceconnectionstatechange_pending.
  - case_bool_decide; [|done]. unfold connection_timeout_handler. simpl.
    destruct (isConnected (this w)); simpl; [done|].
    by destruct (isIOSSafari w).
Qed.

Lemma run_pending moves w :
  Forall (λ m, carries_data m = false) moves →
  pendingFile (this (run moves w)) = pendingFile (this w).
Proof.
  intros H. revert w. induction H as [|m moves Hm _ IH]; intros w; [done|].
  unfold run. simpl. fold (run moves (react m w)).
  rewrite IH. by apply react_pending.
Qed.

Lemma disconnect_pending w :
  pendingFile (this (disconnect w)) = pendingFile (this w).
Proof.
  unfold disconnect. simpl.
  by rewrite clearConnectionTimeout_pending.
Qed.

Lemma connect_pending browser w :
  pendingFile (this (connect browser w).2) = pendingFile (this w).
Proof.
  destruct browser; unfold connect, connect_catch; simpl;
    by rewrite ?call_if_this.
Qed.

Lemma binary_appended ab p w :
  pendingFile (this w) = Some p →
  pendingFile (this (react (channel_message (ArrayBuffer ab)) w)) =
    Some {| type := type p; filename := filename p;
            totalSize := totalSize p; totalChunks := totalChunks p;
            chunks := chunks p ++ [ab];
            receivedSize := receivedSize p + byteLength ab |}.
Proof.
  intros Hp. unfold react, handleMessage, handleMessage_try. rewrite Hp.
  unfold push_chunk. by rewrite call_if_this.
Qed.

(** X18.  A transfer that is being received is tied to the client, not to
    the connection: no event of the channel or of the peer connection, no
    timeout, and neither [disconnect] nor a new [connect] (whatever its
    outcome) discards it.  A chunk that arrives on the new connection is
    appended to the chunks received on the old one. *)
Theorem pending_transfer_survives
    (moves1 moves2 : list Move) (browser : OfferOutcome) (w : World) :
  Forall (λ m, carries_data m = false) (moves1 ++ moves2) →
  let later := run moves2 (connect browser (disconnect (run moves1 w))).2 in
  pendingFile (this later) = pendingFile (this w) ∧
  ∀ p ab,
    pendingFile (this w) = Some p →
    pendingFile (this (react (channel_message (ArrayBuffer ab)) later)) =
      Some {| type := type p; filename := filename p;
              totalSize := totalSize p; totalChunks := totalChunks p;
              chunks := chunks p ++ [ab];
              receivedSize := receivedSize p + byteLength ab |}.
Proof.
  intros [H1 H2]%Forall_app later.
  assert (Hl : pendingFile (this later) = pendingFile (this w)).
  { unfold later. rewrite (run_pending _ _ H2), connect_pending,
      disconnect_pending. exact (run_pending _ _ H1). }
  split; [exact Hl|]. intros p ab Hp. apply binary_appended.
  by rewrite Hl.
Qed.

(** An instance of X18: the channel closes in the middle of a transfer, the
    page disconnects and connects again, and the new channel opens. *)
Lemma pending_transfer_survives_witness :
  pendingFile
    (this (run [channel_opens]
             (connect offer_ok
                (disconnect (run [channel_closes] (world_of receiving_client)))
             ).2)) =
  pendingFile receiving_client.
Proof.
  destruct (pending_transfer_survives [channel_closes] [channel_opens]
              offer_ok (world_of receiving_client)) as [H _].
  - by repeat constructor.
  - exact H.
Defined.

(** ** The order of the candidate calls *)

Lemma deliver_app s1 s2 sub :
  FirebaseSignaling.deliver (s1 ++ s2) sub =
  FirebaseSignaling.deliver s2 (FirebaseSignaling.deliver s1 sub).
Proof. unfold FirebaseSignaling.deliver. apply foldl_app. Qed.

Lemma deliver_flat snapshots sub :
  FirebaseSignaling.deliver snapshots sub =
  foldl FirebaseSignaling.visit sub (concat (entries_of <$> snapshots)).
Proof.
  revert sub. induction snapshots as [|data snapshots IH]; intros sub; [done|].
  rewrite fmap_cons. simpl concat. rewrite foldl_app. rewrite <- IH.
  unfold FirebaseSignaling.deliver. simpl foldl. f_equal.
  unfold FirebaseSignaling.on_value, entries_of.
  by destruct (Js.truthy data).
Qed.

Lemma foldl_visit_first_wins entries sub :
  FirebaseSignaling.applied (foldl FirebaseSignaling.visit sub entries) =
  FirebaseSignaling.applied sub ++
  first_wins (FirebaseSignaling.processedKeys sub) entries.
Proof.
  revert sub. induction entries as [|[key c] entries IH]; intros sub.
  - simpl. by rewrite app_nil_r.
  - simpl foldl. rewrite IH. simpl first_wins.
    unfold FirebaseSignaling.visit. case_bool_decide; [done|].
    simpl. by rewrite <- app_assoc.
Qed.

Lemma onRemoteIceCandidate_consistent :
  FirebaseSignaling.consistent FirebaseSignaling.onRemoteIceCandidate.
Proof.
  split; [|constructor]. intros k. simpl. rewrite elem_of_nil. set_solver.
Qed.

Lemma NoDup_fst_agree (l : list (string * Js.value)) key c c' :
  NoDup l.*1 → (key, c) ∈ l → (key, c') ∈ l → c' = c.
Proof.
  induction l as [|[k v] l IH]; simpl.
  - by intros _ ?%elem_of_nil.
  - rewrite NoDup_cons. intros [Hk Hnd] H1 H2.
    apply elem_of_cons in H1 as [H1|H1], H2 as [H2|H2].
    + congruence.
    + destruct Hk. apply list_elem_of_fmap. exists (key, c').
      split; [|done]. simpl. congruence.
    + destruct Hk. apply list_elem_of_fmap. exists (key, c).
      split; [|done]. simpl. congruence.
    + by apply IH.
Qed.

(** X19.  Once the callback has been called for a key, the candidate it was
    given stands: whatever the relay delivers afterwards under that key, also
    a different candidate, the callback is not called for it again. *)
Theorem candidate_never_revised
    (s1 s2 : list Js.value) (key : string) (c c' : Js.value) :
  (key, c) ∈ FirebaseSignaling.applied
               (FirebaseSignaling.deliver s1
                  FirebaseSignaling.onRemoteIceCandidate) →
  (key, c') ∈ FirebaseSignaling.applied
                (FirebaseSignaling.deliver (s1 ++ s2)
                   FirebaseSignaling.onRemoteIceCandidate) →
  c' = c.
Proof.
  intros H1 H2.
  destruct (Candidates.deliver_spec (s1 ++ s2) _
              onRemoteIceCandidate_consistent) as ([_ Hnd] & _ & _).
  apply (NoDup_fst_agree _ key c c' Hnd); [|exact H2].
  rewrite deliver_app, deliver_flat, foldl_visit_first_wins.
  apply elem_of_app. by left.
Qed.

(** An instance of X19: the relay replaces the candidate stored under
    [k1]. *)
Lemma candidate_never_revised_witness :
  FirebaseSignaling.applied
    (FirebaseSignaling.deliver
       ([Js.object [("k1", Js.str "first")]] ++
        [Js.object [("k1", Js.str "second")]])
       FirebaseSignaling.onRemoteIceCandidate) =
  [("k1", Js.str "first")] ∧
  Js.str "first" = Js.str "first".
Proof.
  split; [by vm_compute|].
  apply (candidate_never_revised
           [Js.object [("k1", Js.str "first")]]
           [Js.object [("k1", Js.str "second")]] "k1").
  - vm_compute. constructor.
  - vm_compute. constructor.
Defined.

(** X20.  The calls of the callback are the delivered entries in the order
    of their arrival, each key at its first appearance; a later delivery only
    adds calls after those already made. *)
Theorem candidates_in_arrival_order (s1 s2 : list Js.value) :
  FirebaseSignaling.applied
    (FirebaseSignaling.deliver s1 FirebaseSignaling.onRemoteIceCandidate) =
    first_wins ∅ (concat (entries_of <$> s1)) ∧
  FirebaseSignaling.applied
    (FirebaseSignaling.deliver s1 FirebaseSignaling.onRemoteIceCandidate)
    `prefix_of`
  FirebaseSignaling.applied
    (FirebaseSignaling.deliver (s1 ++ s2)
       FirebaseSignaling.onRemoteIceCandidate).
Proof.
  split.
  - by rewrite deliver_flat, foldl_visit_first_wins.
  - rewrite deliver_app, (deliver_flat s2), foldl_visit_first_wins.
    by eexists.
Qed.

(** ** The recording timer *)

Lemma string_app_length s t :
  String.length (s +:+ t) = (String.length s + String.length t)%nat.
Proof. induction s as [|a s IH]; simpl; [done|]. by rewrite IH. Qed.

Lemma string_app_inj_suffix s1 s2 t1 t2 :
  String.length t1 = String.length t2 →
  s1 +:+ t1 = s2 +:+ t2 → s1 = s2 ∧ t1 = t2.
Proof.
  revert s2. induction s1 as [|a s1 IH]; intros [|b s2] Hl H; simpl in H.
  - done.
  - exfalso. apply (f_equal String.length) in H.
    rewrite !string_app_length in H. simpl in H.
    rewrite ?string_app_length in H. lia.
  - exfalso. apply (f_equal String.length) in H.
    rewrite !string_app_length in H. simpl in H.
    rewrite ?string_app_length in H. lia.
  - injection H as -> H. destruct (IH s2 Hl H) as [-> ->]. done.
Qed.

Lemma padStart_seconds (s : N) :
  (s < 60)%N →
  padStart 2 (pretty s) =
  String (pretty_N_char (s / 10)) (String (pretty_N_char (s mod 10)) "").
Proof.
  intros H. destruct s as [|p]; [by vm_compute|].
  do 6 (try destruct p as [p|p|]).
  all: try (exfalso; lia).
  all: by vm_compute.
Qed.

Lemma padStart_seconds_inj (s s' : N) :
  (s < 60)%N → (s' < 60)%N →
  padStart 2 (pretty s) = padStart 2 (pretty s') → s = s'.
Proof.
  intros H H'. rewrite !padStart_seconds by done. intros [= H1 H2].
  apply pretty_N_char_inj in H1;
    [|apply N.Div0.div_lt_upper_bound; lia..].
  apply pretty_N_char_inj in H2; [|by apply N.mod_lt..].
  rewrite (N.div_mod s 10), (N.div_mod s' 10) by done. lia.
Qed.

(** X21.  The text of the recording timer determines the count of seconds:
    two different counts are never shown as the same text. *)
Theorem updateTimer_distinct (a b : N) :
  a ≠ b → updateTimer a ≠ updateTimer b.
Proof.
  intros Hne Heq. apply Hne. unfold updateTimer in Heq.
  assert (Ha : (a mod 60 < 60)%N) by (by apply N.mod_lt).
  assert (Hb : (b mod 60 < 60)%N) by (by apply N.mod_lt).
  apply string_app_inj_suffix in Heq as [Hm Hs].
  - apply (inj pretty) in Hm. injection Hs as Hs.
    apply padStart_seconds_inj in Hs; [|done..].
    rewrite (N.div_mod a 60), (N.div_mod b 60) by done. lia.
  - simpl. by rewrite !padStart_seconds.
Qed.

(** An instance of X21: the last second of a minute and the first of the
    next. *)
Lemma updateTimer_distinct_witness :
  updateTimer 59 = "0:59" ∧ updateTimer 60 = "1:00" ∧
  updateTimer 59 ≠ updateTimer 60.
Proof.
  split; [by vm_compute|]. split; [by vm_compute|].
  apply (updateTimer_distinct 59 60). lia.
Defined.

(** ** The other endings of an attempt *)

Lemma pc_failed_fields id p w :
  pc (this w) = Some p →
  connectionState p = cs_failed →
  connectionTimeout (this w) = Some id →
  isConnected (this (pc_onconnectionstatechange w)) = false ∧
  connectionTimeout (this (pc_onconnectionstatechange w)) = None ∧
  timers (pc_onconnectionstatechange w) = timers w ∖ {[id]} ∧
  effects (pc_onconnectionstatechange w) =
    effects w ++
    [console_log "Connection state:"; console_log "CONNECTION FAILED"] ++
    (if onError (this w)
     then [call_onError (Error "Connection failed")] else []).
Proof.
  intros Hpc Hs Hct.
  unfold pc_onconnectionstatechange, clearConnectionTimeout, call_if.
  rewrite Hpc, Hs. simpl. rewrite Hct. simpl.
  destruct (onError (this w)); simpl; repeat split;
    by rewrite <- ?app_assoc.
Qed.

(** X22.  When the peer connection reports [failed] during an attempt, the
    attempt ends at once: the timeout is cancelled, [isConnected] is false,
    and [onError] (if set) is called once with
    [Error('Connection failed')].  The timeout cannot report a second
    failure afterwards. *)
Theorem connection_failed_reports (moves : list Move) (w : World) :
  isConnected (this w) = false →
  let id := next_timer w in
  Forall (λ m, still_negotiating id m = true) moves →
  let before := run moves (connect offer_ok w).2 in
  let after := react (connection_state cs_failed) before in
  isConnected (this after) = false ∧
  connectionTimeout (this after) = None ∧
  (id ∉ timers after) ∧
  effects after =
    effects before ++
    [console_log "Connection state:"; console_log "CONNECTION FAILED"] ++
    (if onError (this before)
     then [call_onError (Error "Connection failed")] else []) ∧
  react (timer_fires id) after = after.
Proof.
  intros Hc id0 Hall before after.
  destruct (connect_awaiting w Hc) as [_ Ha].
  assert (Hb : awaiting id0 before) by (by apply run_awaiting).
  destruct Hb as (Ht & Hin & Hic).
  assert (Hpc : is_Some (pc (this before))).
  { apply run_pc. unfold connect. simpl. by eexists. }
  destruct Hpc as [p Hp].
  destruct (pc_failed_fields id0
              {| connectionState := cs_failed;
                 iceConnectionState := iceConnectionState p |}
              (with_this
                 (set_pc_state
                    (λ p, {| connectionState := cs_failed;
                             iceConnectionState := iceConnectionState p |}))
                 before))
    as (Hic' & Hct & Htm & He).
  { unfold set_pc_state. simpl. by rewrite Hp. }
  { reflexivity. }
  { exact Ht. }
  fold (react (connection_state cs_failed) before) in Hic', Hct, Htm, He.
  fold after in Hic', Hct, Htm, He. simpl in Htm, He.
  assert (Hout : id0 ∉ timers after).
  { rewrite Htm. intros [_ Hne]%elem_of_difference.
    by apply Hne, elem_of_singleton. }
  split; [exact Hic'|]. split; [exact Hct|]. split; [exact Hout|].
  split; [exact He|by apply spent_timer_noop].
Qed.

(** An instance of X22: the first attempt of a fresh client fails. *)
Lemma connection_failed_reports_witness :
  connectionTimeout
    (this (react (connection_state cs_failed)
             (run [] (connect offer_ok (world_of fresh_client)).2))) = None.
Proof.
  destruct (connection_failed_reports [] (world_of fresh_client) eq_refl)
    as (_ & H & _); [constructor|exact H].
Defined.




